(** * Pygame3D wireframes: geometry buffer, affine transforms, groups

    A shallow embedding of [wireframe.py].  A [Wireframe] object is a record
    of its three attributes; a method that mutates [self] is a function from
    the record before the call to the record after it.  Node indices are
    Python integers, hence [Z].

    Node coordinates are float64 in the program.  The records, the groups
    and the generators carry real numbers: what is proved of them concerns
    counts, order, indices, and which expression is evaluated, not the
    value a rounded or overflowing operation has.  The properties that
    depend on that value are proved of the node array in IEEE 754 binary64,
    module [F64]. *)

From Stdlib Require Import Reals Lra ZArith List Floats.
From stdpp Require Import gmap strings list fin_maps functions.

#[local] Open Scope Z_scope.

(** ** Rows and matrices of the node array *)

Abbreviation vec3 := (R * R * R)%type.
Abbreviation vec4 := (R * R * R * R)%type.
Abbreviation mat4 := (vec4 * vec4 * vec4 * vec4)%type.

(** One row of [np.dot(nodes, M)]. *)
Definition vec_mat (v : vec4) (M : mat4) : vec4 :=
  let '(x, y, z, h) := v in
  let '((a00, a01, a02, a03), (a10, a11, a12, a13),
        (a20, a21, a22, a23), (a30, a31, a32, a33)) := M in
  (x * a00 + y * a10 + z * a20 + h * a30,
   x * a01 + y * a11 + z * a21 + h * a31,
   x * a02 + y * a12 + z * a22 + h * a32,
   x * a03 + y * a13 + z * a23 + h * a33)%R.

(** [np.dot(nodes, M)] for an n×4 array and a 4×4 matrix. *)
Definition dot (nodes : list vec4) (M : mat4) : list vec4 :=
  map (λ v, vec_mat v M) nodes.

(** The homogeneous component of a row, and the slice [nodes[:, :-1]]. *)
Definition hom (v : vec4) : R := let '(_, _, _, h) := v in h.
Definition xyz (v : vec4) : vec3 := let '(x, y, z, _) := v in (x, y, z).

(** The last column of a matrix. *)
Definition last_column (M : mat4) : vec4 :=
  let '((_, _, _, a03), (_, _, _, a13), (_, _, _, a23), (_, _, _, a33)) := M in
  (a03, a13, a23, a33).

(** ** Reductions along axis 0 *)

(** An operation on scalars applied to two rows component by component. *)
Definition pointwise (op : R → R → R) (a b : vec3) : vec3 :=
  let '(ax, ay, az) := a in let '(bx, by', bz) := b in
  (op ax bx, op ay by', op az bz).

(** The reduction of the rows of an n×3 array along axis 0; numpy raises
    ValueError on an array with no rows, which is [None] here. *)
Definition axis_reduce (op : R → R → R) (rows : list vec3) : option vec3 :=
  match rows with
  | [] => None
  | r :: rs => Some (foldl (pointwise op) r rs)
  end.

(** [rows.min(axis=0)] and [rows.max(axis=0)] *)
Definition axis_min : list vec3 → option vec3 := axis_reduce Rmin.
Definition axis_max : list vec3 → option vec3 := axis_reduce Rmax.

(** [0.5*(min_values + max_values)] *)
Definition midpoint (lo hi : vec3) : vec3 :=
  let '(ax, ay, az) := lo in let '(bx, by', bz) := hi in
  (0.5 * (ax + bx), 0.5 * (ay + by'), 0.5 * (az + bz))%R.

(** ** Python list indexing *)

(** [l[i]] with Python's negative indices; [None] is IndexError. *)
Definition getitem {A} (l : list A) (i : Z) : option A :=
  if decide (i < 0) then
    if decide (0 ≤ i + Z.of_nat (length l)) then l !! Z.to_nat (i + Z.of_nat (length l))
    else None
  else l !! Z.to_nat i.

(** ** class Wireframe *)

Record Wireframe := mkWireframe {
  nodes : list vec4;
  edges : list (Z * Z);
  faces : list (list Z)
}.

Module Wireframe.

(** [__init__] *)
Definition init : Wireframe := mkWireframe [] [] [].

(** [addNodes]: [node_array] is an n×3 array. *)
Definition addNodes (self : Wireframe) (node_array : list vec3) : Wireframe :=
  let ones_added := map (λ p : vec3, let '(x, y, z) := p in (x, y, z, 1%R)) node_array in
  mkWireframe (nodes self ++ ones_added) (edges self) (faces self).

(** [addEdges]: the comprehension is evaluated against [self.edges] as it
    is before the [+=]. *)
Definition addEdges (self : Wireframe) (edge_list : list (Z * Z)) : Wireframe :=
  mkWireframe (nodes self)
              (edges self ++ filter (λ edge, edge ∉ edges self) edge_list)
              (faces self).

(** [[(node_list[n-1], node_list[n]) for n in range(num_nodes)]].  A pair
    whose lookup raised IndexError would be missing from the result;
    [face_edges_length] below shows that there is none. *)
Definition face_edges (node_list : list Z) : list (Z * Z) :=
  let num_nodes := Z.of_nat (length node_list) in
  omap (λ n, a ← getitem node_list (n - 1);
             b ← getitem node_list n;
             Some (a, b))
       (seqZ 0 num_nodes).

(** The body of the [for] loop of [addFaces]. *)
Definition addFace (self : Wireframe) (node_list : list Z) : Wireframe :=
  if decide (Forall (λ node, node < Z.of_nat (length (nodes self))) node_list) then
    addEdges (mkWireframe (nodes self) (edges self) (faces self ++ [node_list]))
             (face_edges node_list)
  else self.

Definition addFaces (self : Wireframe) (face_list : list (list Z)) : Wireframe :=
  foldl addFace self face_list.

(** [transform] *)
Definition transform (self : Wireframe) (transformation_matrix : mat4) : Wireframe :=
  mkWireframe (dot (nodes self) transformation_matrix) (edges self) (faces self).

(** [translate]; the defaults [dx=0, dy=0, dz=0] are passed explicitly. *)
Definition translate (self : Wireframe) (dx dy dz : R) : Wireframe :=
  mkWireframe
    (dot (nodes self) ((1, 0, 0, 0), (0, 1, 0, 0), (0, 0, 1, 0), (dx, dy, dz, 1))%R)
    (edges self) (faces self).

(** [scale]; the defaults [cx=0, cy=0, cz=0] are passed explicitly. *)
Definition scale (self : Wireframe) (s cx cy cz : R) : Wireframe :=
  mkWireframe
    (dot (nodes self) ((s, 0, 0, 0),
                       (0, s, 0, 0),
                       (0, 0, s, 0),
                       (cx * (1 - s), cy * (1 - s), cz * (1 - s), 1))%R)
    (edges self) (faces self).

Definition rotateX (self : Wireframe) (y z radians : R) : Wireframe :=
  let c := cos radians in
  let s := sin radians in
  mkWireframe
    (dot (nodes self) ((1, 0, 0, 0),
                       (0, c, - s, 0),
                       (0, s, c, 0),
                       (0, - y * c - z * s + y, y * s - z * c + z, 1))%R)
    (edges self) (faces self).

Definition rotateY (self : Wireframe) (x z radians : R) : Wireframe :=
  let c := cos radians in
  let s := sin radians in
  mkWireframe
    (dot (nodes self) ((c, 0, s, 0),
                       (0, 1, 0, 0),
                       (- s, 0, c, 0),
                       (z * s - x * c + x, 0, - z * c - x * s + z, 1))%R)
    (edges self) (faces self).

Definition rotateZ (self : Wireframe) (x y radians : R) : Wireframe :=
  let c := cos radians in
  let s := sin radians in
  mkWireframe
    (dot (nodes self) ((c, - s, 0, 0),
                       (s, c, 0, 0),
                       (0, 0, 1, 0),
                       (- x * c - y * s + x, x * s - c * y + y, 0, 1))%R)
    (edges self) (faces self).

(** [findCentre]; [None] is the ValueError numpy raises when it reduces
    an array with no rows. *)
Definition findCentre (self : Wireframe) : option vec3 :=
  min_values ← axis_min (map xyz (nodes self));
  max_values ← axis_max (map xyz (nodes self));
  Some (midpoint min_values max_values).

End Wireframe.

(** ** class WireframeGroup *)

(** A group holds references to Wireframe objects, which its methods mutate
    in place.  The store maps a reference to the object it denotes; a group
    method takes the store before the call and returns the store after it. *)
Abbreviation ref := positive.
Abbreviation store := (ref → Wireframe).

Record WireframeGroup := mkWireframeGroup {
  wireframes : gmap string ref
}.

Module WireframeGroup.

(** [__init__] *)
Definition init : WireframeGroup := mkWireframeGroup ∅.

Definition addWireframe (self : WireframeGroup) (name : string) (wireframe : ref)
  : WireframeGroup :=
  mkWireframeGroup (<[name := wireframe]> (wireframes self)).

(** [self.wireframes.values()] *)
Definition values (self : WireframeGroup) : list ref :=
  (map_to_list (wireframes self)).*2.

(** [for wireframe in self.wireframes.values(): wireframe.method(...)] *)
Definition for_each (method : Wireframe → Wireframe) (refs : list ref) (st : store)
  : store :=
  foldl (λ st' wireframe, alter method wireframe st') st refs.

Definition translate (self : WireframeGroup) (dx dy dz : R) (st : store) : store :=
  for_each (λ wireframe, Wireframe.translate wireframe dx dy dz) (values self) st.

Definition scale (self : WireframeGroup) (scale : R) (xyz : vec3) (st : store) : store :=
  let '(x, y, z) := xyz in
  for_each (λ wireframe, Wireframe.scale wireframe scale x y z) (values self) st.

(** [findCentre]; [None] is the ValueError of a reduction over no rows. *)
Definition findCentre (self : WireframeGroup) (st : store) : option vec3 :=
  mins ← mapM (λ wireframe, axis_min (map xyz (nodes (st wireframe)))) (values self);
  min_values ← axis_min mins;
  maxs ← mapM (λ wireframe, axis_max (map xyz (nodes (st wireframe)))) (values self);
  max_values ← axis_max maxs;
  Some (midpoint min_values max_values).

(** [rotateX]; [centre = None] is the omitted argument, and the result is
    [None] when [findCentre] raises. *)
Definition rotateX (self : WireframeGroup) (radians : R) (centre : option (R * R))
    (st : store) : option store :=
  '(cy, cz) ← match centre with
              | None => '(cx, cy, cz) ← findCentre self st; Some (cy, cz)
              | Some (cy, cz) => Some (cy, cz)
              end;
  Some (for_each (λ wireframe, Wireframe.rotateX wireframe cy cz radians)
                 (values self) st).

Definition rotateY (self : WireframeGroup) (radians : R) (centre : option (R * R))
    (st : store) : option store :=
  '(cx, cz) ← match centre with
              | None => '(cx, cy, cz) ← findCentre self st; Some (cx, cz)
              | Some (cx, cz) => Some (cx, cz)
              end;
  Some (for_each (λ wireframe, Wireframe.rotateY wireframe cx cz radians)
                 (values self) st).

Definition rotateZ (self : WireframeGroup) (radians : R) (centre : option (R * R))
    (st : store) : option store :=
  '(cx, cy) ← match centre with
              | None => '(cx, cy, cz) ← findCentre self st; Some (cx, cy)
              | Some (cx, cy) => Some (cx, cy)
              end;
  Some (for_each (λ wireframe, Wireframe.rotateZ wireframe cx cy radians)
                 (values self) st).

End WireframeGroup.

(** ** Sequences of method calls on one Wireframe *)

Inductive append_call :=
| AddNodes (node_array : list vec3)
| AddEdges (edge_list : list (Z * Z))
| AddFaces (face_list : list (list Z)).

Inductive transform_call :=
| Transform (transformation_matrix : mat4)
| Translate (dx dy dz : R)
| Scale (s cx cy cz : R)
| RotateX (y z radians : R)
| RotateY (x z radians : R)
| RotateZ (x y radians : R).

Inductive call :=
| Append (a : append_call)
| Move (t : transform_call).

Definition run_append (self : Wireframe) (a : append_call) : Wireframe :=
  match a with
  | AddNodes node_array => Wireframe.addNodes self node_array
  | AddEdges edge_list => Wireframe.addEdges self edge_list
  | AddFaces face_list => Wireframe.addFaces self face_list
  end.

Definition run_transform (self : Wireframe) (t : transform_call) : Wireframe :=
  match t with
  | Transform M => Wireframe.transform self M
  | Translate dx dy dz => Wireframe.translate self dx dy dz
  | Scale s cx cy cz => Wireframe.scale self s cx cy cz
  | RotateX y z radians => Wireframe.rotateX self y z radians
  | RotateY x z radians => Wireframe.rotateY self x z radians
  | RotateZ x y radians => Wireframe.rotateZ self x y radians
  end.

Definition run_call (self : Wireframe) (c : call) : Wireframe :=
  match c with
  | Append a => run_append self a
  | Move t => run_transform self t
  end.

Definition run_appends (self : Wireframe) (l : list append_call) : Wireframe :=
  foldl run_append self l.

Definition run_transforms (self : Wireframe) (l : list transform_call) : Wireframe :=
  foldl run_transform self l.

Definition run_calls (self : Wireframe) (l : list call) : Wireframe :=
  foldl run_call self l.

(** The node count as the Python integer [len(self.nodes)]. *)
Definition node_count (self : Wireframe) : Z := Z.of_nat (length (nodes self)).

(** A loop that [addFaces] drops: one of its indices is not below the node
    count. *)
Definition out_of_range (self : Wireframe) (node_list : list Z) : Prop :=
  Exists (λ node, node_count self ≤ node) node_list.

(** Every index of every stored face is below the node count. *)
Definition faces_below_node_count (self : Wireframe) : Prop :=
  Forall (Forall (λ node, node < node_count self)) (faces self).

(** Every index of every stored face denotes a node: [self.nodes[node]]
    does not raise. *)
Definition faces_refer_to_nodes (self : Wireframe) : Prop :=
  Forall (Forall (λ node, is_Some (getitem (nodes self) node))) (faces self).

(** Every boundary pair of every stored face is in the edge list. *)
Definition faces_have_edges (self : Wireframe) : Prop :=
  Forall (λ face, Forall (λ edge, edge ∈ edges self) (Wireframe.face_edges face))
         (faces self).

(** ** Notions used to state the properties of a group *)

(** The nodes of all members of a group, as one buffer. *)
Definition all_nodes (self : WireframeGroup) (st : store) : list vec4 :=
  concat ((λ wireframe, nodes (st wireframe)) <$> WireframeGroup.values self).

(** How many names of a group denote the object [r]. *)
Definition occurrences (r : ref) (refs : list ref) : nat :=
  length (filter (λ r', r' = r) refs).


(** [st'] is [st] after [method] has been called once on the object of each
    name in [refs]: an object that several names denote is called as often. *)
Definition called_on_each (method : Wireframe → Wireframe) (refs : list ref)
    (st st' : store) : Prop :=
  ∀ r, st' r = Nat.iter (occurrences r refs) method (st r).


(** The matrix by which a transform call multiplies the node array. *)
Definition call_matrix (t : transform_call) : mat4 :=
  match t with
  | Transform M => M
  | Translate dx dy dz =>
      ((1, 0, 0, 0), (0, 1, 0, 0), (0, 0, 1, 0), (dx, dy, dz, 1))%R
  | Scale s cx cy cz =>
      ((s, 0, 0, 0), (0, s, 0, 0), (0, 0, s, 0),
       (cx * (1 - s), cy * (1 - s), cz * (1 - s), 1))%R
  | RotateX y z radians =>
      let c := cos radians in
      let s := sin radians in
      ((1, 0, 0, 0), (0, c, - s, 0), (0, s, c, 0),
       (0, - y * c - z * s + y, y * s - z * c + z, 1))%R
  | RotateY x z radians =>
      let c := cos radians in
      let s := sin radians in
      ((c, 0, s, 0), (0, 1, 0, 0), (- s, 0, c, 0),
       (z * s - x * c + x, 0, - z * c - x * s + z, 1))%R
  | RotateZ x y radians =>
      let c := cos radians in
      let s := sin radians in
      ((c, - s, 0, 0), (s, c, 0, 0), (0, 0, 1, 0),
       (- x * c - y * s + x, x * s - c * y + y, 0, 1))%R
  end.

(** ** Fixtures *)

(** The four corners of the unit square, no edges, no faces. *)
Definition unit_square : Wireframe :=
  Wireframe.addNodes Wireframe.init [(0, 0, 0); (1, 0, 0); (1, 1, 0); (0, 1, 0)]%R.

(** Three nodes, no edges, no faces. *)
Definition triangle : Wireframe :=
  Wireframe.addNodes Wireframe.init [(0, 0, 0); (1, 0, 0); (0, 1, 0)]%R.

(** No nodes and the single edge [(0, 1)]. *)
Definition one_edge : Wireframe := Wireframe.addEdges Wireframe.init [(0, 1)].






(** ** Shape generators *)

(** [range(start, stop, step)] for a positive step. *)
Definition range3 (start stop step : Z) : list Z :=
  (λ i, start + i * step) <$> seqZ 0 ((stop - start + step - 1) `div` step).

(** [getCuboid((x,y,z), (w,h,d))] *)
Definition getCuboid (corner size : vec3) : Wireframe :=
  let '(x, y, z) := corner in
  let '(w, h, d) := size in
  let cuboid := Wireframe.init in
  let cuboid := Wireframe.addNodes cuboid
    (nx ← [x; x + w]; ny ← [y; y + h]; nz ← [z; z + d]; [(nx, ny, nz)])%R in
  let cuboid := Wireframe.addFaces cuboid [[0; 1; 3; 2]; [4; 5; 7; 6]] in
  let cuboid := Wireframe.addFaces cuboid [[0; 1; 5; 4]; [2; 3; 7; 6]] in
  let cuboid := Wireframe.addFaces cuboid [[0; 2; 6; 4]; [1; 3; 7; 5]] in
  cuboid.

(** [addNodes] on a Python list, or an [np.array] of one, that has no
    element: the operand of [np.hstack] is then one-dimensional and does not
    stack with the column of ones, and numpy raises ValueError ([None]). *)
Definition addNodes_of_list (self : Wireframe) (rows : list vec3) : option Wireframe :=
  match rows with
  | [] => None
  | _ => Some (Wireframe.addNodes self rows)
  end.

(** [getHorizontalGrid((x,y,z), (dx,dz), (nx,nz))] *)
Definition getHorizontalGrid (origin : vec3) (step : R * R) (count : Z * Z)
  : option Wireframe :=
  let '(x, y, z) := origin in
  let '(dx, dz) := step in
  let '(nx, nz) := count in
  grid ← addNodes_of_list Wireframe.init
    (n1 ← seqZ 0 (nx + 1); n2 ← seqZ 0 (nz + 1);
     [(x + IZR n1 * dx, y, z + IZR n2 * dz)%R]);
  let grid := Wireframe.addEdges grid
    (n1 ← seqZ 0 (nx + 1); n2 ← seqZ 0 nz;
     [(n1 * (nz + 1) + n2, n1 * (nz + 1) + n2 + 1)]) in
  let grid := Wireframe.addEdges grid
    (n1 ← seqZ 0 nx; n2 ← seqZ 0 (nz + 1);
     [(n1 * (nz + 1) + n2, (n1 + 1) * (nz + 1) + n2)]) in
  Some grid.

(** [getSpheroid((x,y,z), (rx,ry,rz), resolution)] *)
Definition getSpheroid (centre radii : vec3) (resolution : Z) : option Wireframe :=
  let '(x, y, z) := centre in
  let '(rx, ry, rz) := radii in
  let latitudes := (λ n, IZR n * PI / IZR resolution)%R <$> seqZ 1 (resolution - 1) in
  let longitudes := (λ n, IZR n * 2 * PI / IZR resolution)%R <$> seqZ 0 resolution in
  spheroid ← addNodes_of_list Wireframe.init
    (m ← latitudes; n ← longitudes;
     [(x + rx * sin n * sin m, y - ry * cos m, z - rz * cos n * sin m)%R]);
  let num_nodes := resolution * (resolution - 1) in
  let spheroid := Wireframe.addFaces spheroid
    (n ← seqZ 0 resolution; m ← range3 0 (num_nodes - resolution) resolution;
     [[m + n;
       m + (n + 1) `mod` resolution;
       (m + resolution) `mod` resolution ^ 2 + (n + 1) `mod` resolution;
       (m + resolution) `mod` num_nodes + n]]) in
  spheroid ← addNodes_of_list spheroid [(x, y + ry, z); (x, y - ry, z)]%R;
  let spheroid := Wireframe.addFaces spheroid
    ((λ n, [num_nodes + 1; (n + 1) `mod` resolution; n]) <$> seqZ 0 resolution) in
  let start_node := num_nodes - resolution in
  let spheroid := Wireframe.addFaces spheroid
    ((λ n, [num_nodes; start_node + n; start_node + (n + 1) `mod` resolution])
       <$> seqZ 0 resolution) in
  Some spheroid.

(** ** The node array in float64 *)

(** The node array of a Wireframe with its entries as IEEE 754 binary64
    numbers, as numpy stores them.  A function of this module takes
    [self.nodes] before a method call and returns [self.nodes] after it;
    the edges and faces play no part.  Arguments are float64 values.  The
    four products of a row of [np.dot] are summed from left to right.
    [np.cos] and [np.sin] are the C library's, taken as parameters. *)
Abbreviation fvec3 := (float * float * float)%type.
Abbreviation fvec4 := (float * float * float * float)%type.
Abbreviation fmat4 := (fvec4 * fvec4 * fvec4 * fvec4)%type.

Module F64.

Section libm.
Variables cos64 sin64 : float → float.

(** One row of [np.dot(nodes, M)]. *)
Definition vec_mat (v : fvec4) (M : fmat4) : fvec4 :=
  let '(x, y, z, h) := v in
  let '((a00, a01, a02, a03), (a10, a11, a12, a13),
        (a20, a21, a22, a23), (a30, a31, a32, a33)) := M in
  (x * a00 + y * a10 + z * a20 + h * a30,
   x * a01 + y * a11 + z * a21 + h * a31,
   x * a02 + y * a12 + z * a22 + h * a32,
   x * a03 + y * a13 + z * a23 + h * a33)%float.

Definition dot (nodes : list fvec4) (M : fmat4) : list fvec4 :=
  map (λ v, vec_mat v M) nodes.

Definition hom (v : fvec4) : float := let '(_, _, _, h) := v in h.

Definition last_column (M : fmat4) : fvec4 :=
  let '((_, _, _, a03), (_, _, _, a13), (_, _, _, a23), (_, _, _, a33)) := M in
  (a03, a13, a23, a33).

(** [addNodes] *)
Definition addNodes (nodes : list fvec4) (node_array : list fvec3) : list fvec4 :=
  let ones_added := map (λ p : fvec3, let '(x, y, z) := p in (x, y, z, 1%float)) node_array in
  nodes ++ ones_added.

(** [transform] *)
Definition transform (nodes : list fvec4) (transformation_matrix : fmat4) : list fvec4 :=
  dot nodes transformation_matrix.

(** [translate] *)
Definition translate (nodes : list fvec4) (dx dy dz : float) : list fvec4 :=
  dot nodes ((1, 0, 0, 0), (0, 1, 0, 0), (0, 0, 1, 0), (dx, dy, dz, 1))%float.

(** [scale] *)
Definition scale (nodes : list fvec4) (s cx cy cz : float) : list fvec4 :=
  dot nodes ((s, 0, 0, 0),
             (0, s, 0, 0),
             (0, 0, s, 0),
             (cx * (1 - s), cy * (1 - s), cz * (1 - s), 1))%float.

Definition rotateX (nodes : list fvec4) (y z radians : float) : list fvec4 :=
  let c := cos64 radians in
  let s := sin64 radians in
  dot nodes ((1, 0, 0, 0),
             (0, c, - s, 0),
             (0, s, c, 0),
             (0, - y * c - z * s + y, y * s - z * c + z, 1))%float.

Definition rotateY (nodes : list fvec4) (x z radians : float) : list fvec4 :=
  let c := cos64 radians in
  let s := sin64 radians in
  dot nodes ((c, 0, s, 0),
             (0, 1, 0, 0),
             (- s, 0, c, 0),
             (z * s - x * c + x, 0, - z * c - x * s + z, 1))%float.

Definition rotateZ (nodes : list fvec4) (x y radians : float) : list fvec4 :=
  let c := cos64 radians in
  let s := sin64 radians in
  dot nodes ((c, - s, 0, 0),
             (s, c, 0, 0),
             (0, 0, 1, 0),
             (- x * c - y * s + x, x * s - c * y + y, 0, 1))%float.

(** The method calls that assign [self.nodes]. *)
Inductive call :=
| AddNodes (node_array : list fvec3)
| Transform (transformation_matrix : fmat4)
| Translate (dx dy dz : float)
| Scale (s cx cy cz : float)
| RotateX (y z radians : float)
| RotateY (x z radians : float)
| RotateZ (x y radians : float).

Definition run_call (nodes : list fvec4) (c : call) : list fvec4 :=
  match c with
  | AddNodes node_array => addNodes nodes node_array
  | Transform M => transform nodes M
  | Translate dx dy dz => translate nodes dx dy dz
  | Scale s cx cy cz => scale nodes s cx cy cz
  | RotateX y z radians => rotateX nodes y z radians
  | RotateY x z radians => rotateY nodes x z radians
  | RotateZ x y radians => rotateZ nodes x y radians
  end.

Definition run_calls (nodes : list fvec4) (l : list call) : list fvec4 :=
  foldl run_call nodes l.

(** Every stored node has homogeneous component exactly 1. *)
Definition homogeneous (nodes : list fvec4) : Prop :=
  Forall (λ node, hom node = 1%float) nodes.

(** The three coordinates of every node are finite: neither infinite nor
    nan. *)
Definition finite_nodes (nodes : list fvec4) : Prop :=
  Forall (λ node : fvec4, let '(x, y, z, _) := node in
            is_finite x = true ∧ is_finite y = true ∧ is_finite z = true) nodes.

(** A matrix whose last column is (0, 0, 0, 1). *)
Definition affine (M : fmat4) : Prop := last_column M = (0, 0, 0, 1)%float.

(** Any call except [transform] with a matrix that is not affine. *)
Definition affine_call (c : call) : Prop :=
  match c with
  | Transform M => affine M
  | _ => True
  end.

(** The coordinates are finite whenever a call of the list multiplies the
    node array by a matrix. *)
Fixpoint finite_at_products (nodes : list fvec4) (l : list call) : Prop :=
  match l with
  | [] => True
  | c :: l' =>
      match c with
      | AddNodes _ => True
      | _ => finite_nodes nodes
      end
      ∧ finite_at_products (run_call nodes c) l'
  end.

End libm.

End F64.

(** * Properties *)

(** ** The geometry buffer *)

Section geometry_buffer.
Import Wireframe.

Lemma nodes_addEdges w el : nodes (addEdges w el) = nodes w.
Proof. reflexivity. Qed.

Lemma faces_addEdges w el : faces (addEdges w el) = faces w.
Proof. reflexivity. Qed.

Lemma nodes_addFace w l : nodes (addFace w l) = nodes w.
Proof. unfold addFace. case_decide; reflexivity. Qed.

Lemma nodes_addFaces w fl : nodes (addFaces w fl) = nodes w.
Proof.
  revert w. induction fl as [|l fl IH]; intros w; simpl; [done|].
  unfold addFaces in IH. rewrite IH. apply nodes_addFace.
Qed.

Lemma addFaces_cons w l fl : addFaces w (l :: fl) = addFaces (addFace w l) fl.
Proof. reflexivity. Qed.

Lemma addFaces_app w fl1 fl2 : addFaces w (fl1 ++ fl2) = addFaces (addFaces w fl1) fl2.
Proof. apply foldl_app. Qed.

Lemma out_of_range_addFaces w fl l : out_of_range (addFaces w fl) l ↔ out_of_range w l.
Proof. unfold out_of_range, node_count. by rewrite nodes_addFaces. Qed.

(** A loop with an index that is not below the node count fails the test
    of [addFaces] and changes nothing. *)
Lemma addFace_out_of_range w l : out_of_range w l → addFace w l = w.
Proof.
  unfold out_of_range, node_count, addFace. intros Hex.
  case_decide as Hall; [|done].
  apply Exists_exists in Hex as (i & Hi & Hle).
  rewrite Forall_forall in Hall. specialize (Hall i Hi). lia.
Qed.

Lemma addFaces_all_out_of_range w fl : Forall (out_of_range w) fl → addFaces w fl = w.
Proof.
  induction 1 as [|l fl Hl _ IH]; simpl; [done|].
  by rewrite addFace_out_of_range.
Qed.

Lemma omap_length_total {A B} (f : A → option B) (l : list A) :
  Forall (λ x, is_Some (f x)) l → length (omap f l) = length l.
Proof.
  induction 1 as [|x l [y Hy] _ IH]; simpl; [done|].
  rewrite Hy. simpl. f_equal. exact IH.
Qed.

(** No lookup of the comprehension of [addFaces] raises IndexError: it
    yields one pair per index of the loop. *)
Lemma face_edges_length l : length (face_edges l) = length l.
Proof.
  unfold face_edges. rewrite omap_length_total.
  - rewrite length_seqZ. lia.
  - apply list.Forall_forall. intros n Hn. apply elem_of_seqZ in Hn.
    assert (Hlook : ∀ k : nat, (k < length l)%nat → is_Some (l !! k))
      by (intros k Hk; by apply lookup_lt_is_Some).
    assert (is_Some (getitem l n)) as [b Hb].
    { unfold getitem. case_decide; [lia|]. apply Hlook. lia. }
    assert (is_Some (getitem l (n - 1))) as [a Ha].
    { unfold getitem. case_decide.
      - case_decide; [|lia]. apply Hlook. lia.
      - apply Hlook. lia. }
    rewrite Ha, Hb. simpl. eauto.
Qed.

Lemma filter_all_present (es el : list (Z * Z)) :
  (∀ e, e ∈ el → e ∈ es) → filter (λ e, e ∉ es) el = [].
Proof.
  induction el as [|e el IH]; intros Hin; [done|].
  rewrite filter_cons_False; [|intros Hne; apply Hne, Hin; left].
  apply IH. intros e' He'. apply Hin. by right.
Qed.

Lemma addEdges_all_present w el : (∀ e, e ∈ el → e ∈ edges w) → addEdges w el = w.
Proof.
  intros Hin. destruct w as [ns es fs]. unfold addEdges. simpl in *.
  by rewrite filter_all_present, app_nil_r.
Qed.

Lemma elem_of_edges_addEdges w el e :
  e ∈ edges (addEdges w el) ↔ e ∈ edges w ∨ (e ∈ el ∧ e ∉ edges w).
Proof.
  unfold addEdges. simpl. rewrite elem_of_app, list_elem_of_filter. tauto.
Qed.

Lemma edges_addFace_prefix w l : edges w `prefix_of` edges (addFace w l).
Proof.
  unfold addFace. case_decide; [|done]. simpl. by apply prefix_app_r.
Qed.

Lemma faces_addFace_prefix w l : faces w `prefix_of` faces (addFace w l).
Proof.
  unfold addFace. case_decide; [|done]. simpl. by apply prefix_app_r.
Qed.

Lemma addFaces_prefix w fl :
  edges w `prefix_of` edges (addFaces w fl) ∧ faces w `prefix_of` faces (addFaces w fl).
Proof.
  revert w. induction fl as [|l fl IH]; intros w; simpl; [done|].
  destruct (IH (addFace w l)) as [He Hf]. split.
  - etrans; [apply edges_addFace_prefix|apply He].
  - etrans; [apply faces_addFace_prefix|apply Hf].
Qed.

(** *** Appending edges *)

(** What [addEdges] does: it appends a candidate pair exactly when no
    identical ordered pair (i, j) is in the edge list as it is before the
    call.  Adding pairs that are all present in the same orientation changes
    nothing, a call repeated with the same argument changes nothing, and an
    edge list without repeated ordered pairs stays so when the candidates
    themselves are pairwise distinct. *)
Theorem addEdges_ordered_dedup (w : Wireframe) (edge_list : list (Z * Z)) :
  let w' := addEdges w edge_list in
  (∃ new, edges w' = edges w ++ new ∧
          ∀ i j, (i, j) ∈ new ↔ (i, j) ∈ edge_list ∧ (i, j) ∉ edges w)
  ∧ ((∀ i j, (i, j) ∈ edge_list → (i, j) ∈ edges w) → w' = w)
  ∧ addEdges w' edge_list = w'
  ∧ (NoDup (edges w) → NoDup edge_list → NoDup (edges w')).
Proof.
  simpl. repeat split.
  - exists (filter (λ e, e ∉ edges w) edge_list). split; [done|].
    intros i j. rewrite list_elem_of_filter. tauto.
  - intros Hin. apply addEdges_all_present. intros [i j]. apply Hin.
  - apply addEdges_all_present. intros e He.
    apply elem_of_edges_addEdges. destruct (decide (e ∈ edges w)); auto.
  - intros Hw Hel. unfold addEdges. simpl. apply list.NoDup_app. repeat split.
    + done.
    + intros e He Hf. apply list_elem_of_filter in Hf as [Hne _]. by apply Hne.
    + by apply list.NoDup_filter.
Qed.

Lemma addEdges_ordered_dedup_witness :
  (∀ i j, (i, j) ∈ [(0, 1)] → (i, j) ∈ edges one_edge)
  ∧ addEdges one_edge [(0, 1)] = one_edge.
Proof.
  assert (H : ∀ i j, (i, j) ∈ [(0, 1)] → (i, j) ∈ edges one_edge).
  { intros i j Hin. apply list_elem_of_singleton in Hin as ->. vm_compute. left. }
  split; [exact H|].
  exact (proj1 (proj2 (addEdges_ordered_dedup one_edge [(0, 1)])) H).
Defined.

(** C1 fails on the code: the filter of [addEdges] is there to keep an edge
    from being stored twice and compares ordered tuples only.  With the
    pair (0, 1) present, the reversed pair (1, 0) is appended all the same:
    the edge count grows and the list holds two entries that are equal as
    unordered pairs. *)
Theorem addEdges_reversed_pair_appended :
  (0, 1) ∈ edges one_edge
  ∧ edges (addEdges one_edge [(1, 0)]) = [(0, 1); (1, 0)]
  ∧ length (edges (addEdges one_edge [(1, 0)])) ≠ length (edges one_edge).
Proof.
  split; [vm_compute; left|]. split; [by vm_compute|]. vm_compute. lia.
Qed.

(** *** Appending faces *)

(** C2, as amended: a loop that contains an index greater than or equal to
    the node count is dropped whole at its turn (no face appended, no edge
    derived), so the call ends as it would without that loop; the other
    loops of the same call are still inserted, and the call leaves the
    wireframe (hence its node, edge and face counts) unchanged when every
    loop of its argument contains such an index. *)
Theorem addFaces_drops_out_of_range_loop
    (w : Wireframe) (before : list (list Z)) (loop : list Z) (after : list (list Z)) :
  out_of_range w loop →
  addFace (addFaces w before) loop = addFaces w before
  ∧ addFaces w (before ++ loop :: after) = addFaces w (before ++ after)
  ∧ (Forall (out_of_range w) before → Forall (out_of_range w) after →
     addFaces w (before ++ loop :: after) = w).
Proof.
  intros Hloop.
  assert (Hdrop : addFace (addFaces w before) loop = addFaces w before)
    by (by apply addFace_out_of_range, out_of_range_addFaces).
  split; [exact Hdrop|]. split.
  - by rewrite !addFaces_app, addFaces_cons, Hdrop.
  - intros Hb Ha. apply addFaces_all_out_of_range.
    apply list.Forall_app. split; [done|]. by constructor.
Qed.

Lemma addFaces_drops_out_of_range_loop_witness :
  out_of_range triangle [0; 5]
  ∧ addFaces triangle ([[0; 1; 2]] ++ [0; 5] :: []) = addFaces triangle ([[0; 1; 2]] ++ []).
Proof.
  assert (H : out_of_range triangle [0; 5]).
  { apply Exists_cons_tl, Exists_cons_hd. vm_compute. discriminate. }
  split; [exact H|].
  exact (proj1 (proj2 (addFaces_drops_out_of_range_loop triangle [[0; 1; 2]] [0; 5] [] H))).
Defined.

(** C2 as stated fails: the argument contains the out-of-range index 5, yet
    the call appends the valid loop and its three edges, so the face and
    edge counts differ from those before the call. *)
Lemma addFaces_call_not_atomic :
  out_of_range triangle [0; 5]
  ∧ faces (addFaces triangle [[0; 1; 2]; [0; 5]]) = [[0; 1; 2]]
  ∧ edges (addFaces triangle [[0; 1; 2]; [0; 5]]) = [(2, 0); (0, 1); (1, 2)]
  ∧ length (faces (addFaces triangle [[0; 1; 2]; [0; 5]])) ≠ length (faces triangle)
  ∧ length (edges (addFaces triangle [[0; 1; 2]; [0; 5]])) ≠ length (edges triangle).
Proof.
  split; [apply Exists_cons_tl, Exists_cons_hd; vm_compute; discriminate|].
  repeat split; vm_compute; congruence.
Qed.

(** C5 fails on the code: the test of [addFaces] bounds an index from above
    only.  On a wireframe without nodes the loop [-1] passes the test
    (-1 < 0); the face [-1] and the edge (-1, -1) are stored although no
    node exists, so that a stored face index denotes no node. *)
Theorem addFaces_accepts_negative_index :
  let w := addFaces init [[-1]] in
  nodes w = [] ∧ faces w = [[-1]] ∧ edges w = [(-1, -1)]
  ∧ ¬ faces_refer_to_nodes w.
Proof.
  repeat split; try by vm_compute.
  intros H. apply Forall_inv, Forall_inv in H. by destruct H.
Qed.

(** C9: on the four corners of the unit square, [addFaces([[0,1,2,3]])]
    appends the one face [0,1,2,3] and the four edges (3,0), (0,1), (1,2),
    (2,3) in that order, the wraparound pair first; the pairs are those of
    the comprehension and go through [addEdges], so that deriving them a
    second time adds no edge. *)
Theorem addFaces_unit_square :
  let w' := addFaces unit_square [[0; 1; 2; 3]] in
  nodes unit_square = [(0, 0, 0, 1); (1, 0, 0, 1); (1, 1, 0, 1); (0, 1, 0, 1)]%R
  ∧ edges unit_square = [] ∧ faces unit_square = []
  ∧ faces w' = [[0; 1; 2; 3]]
  ∧ edges w' = [(3, 0); (0, 1); (1, 2); (2, 3)]
  ∧ nodes w' = nodes unit_square
  ∧ face_edges [0; 1; 2; 3] = [(3, 0); (0, 1); (1, 2); (2, 3)]
  ∧ w' = addEdges (mkWireframe (nodes unit_square) [] [[0; 1; 2; 3]])
                  (face_edges [0; 1; 2; 3])
  ∧ edges (addFaces w' [[0; 1; 2; 3]]) = edges w'.
Proof. repeat split; by vm_compute. Qed.

(** *** The append operations leave earlier geometry in place *)

Lemma run_append_prefix w a :
  nodes w `prefix_of` nodes (run_append w a)
  ∧ edges w `prefix_of` edges (run_append w a)
  ∧ faces w `prefix_of` faces (run_append w a).
Proof.
  destruct a as [na|el|fl]; simpl.
  - split; [by apply prefix_app_r|done].
  - split; [done|]. split; [by apply prefix_app_r|done].
  - rewrite nodes_addFaces. split; [done|]. apply addFaces_prefix.
Qed.

Lemma run_appends_prefix w calls :
  nodes w `prefix_of` nodes (run_appends w calls)
  ∧ edges w `prefix_of` edges (run_appends w calls)
  ∧ faces w `prefix_of` faces (run_appends w calls).
Proof.
  revert w. induction calls as [|a calls IH]; intros w; simpl; [done|].
  destruct (run_append_prefix w a) as (Hn & He & Hf).
  destruct (IH (run_append w a)) as (Hn' & He' & Hf').
  repeat split; etrans; eauto.
Qed.

(** C10: [addNodes], [addEdges] and [addFaces] only append.  After any of
    them, and after any sequence of them, the earlier node, edge and face
    lists are prefixes of the new ones: every earlier entry is unchanged
    and keeps its index, and whatever is new comes after it. *)
Theorem append_operations_only_append (w : Wireframe) :
  (∀ node_array,
     nodes (addNodes w node_array)
       = nodes w ++ map (λ p : vec3, let '(x, y, z) := p in (x, y, z, 1%R)) node_array
     ∧ edges (addNodes w node_array) = edges w
     ∧ faces (addNodes w node_array) = faces w)
  ∧ (∀ edge_list,
     nodes (addEdges w edge_list) = nodes w
     ∧ edges w `prefix_of` edges (addEdges w edge_list)
     ∧ faces (addEdges w edge_list) = faces w)
  ∧ (∀ face_list,
     nodes (addFaces w face_list) = nodes w
     ∧ edges w `prefix_of` edges (addFaces w face_list)
     ∧ faces w `prefix_of` faces (addFaces w face_list))
  ∧ (∀ calls : list append_call,
     let w' := run_appends w calls in
     (nodes w `prefix_of` nodes w'
      ∧ edges w `prefix_of` edges w'
      ∧ faces w `prefix_of` faces w')
     ∧ (∀ i node, nodes w !! i = Some node → nodes w' !! i = Some node)
     ∧ (∀ i edge, edges w !! i = Some edge → edges w' !! i = Some edge)
     ∧ (∀ i face, faces w !! i = Some face → faces w' !! i = Some face)).
Proof.
  split; [done|]. split.
  { intros el. split; [done|]. split; [|done]. simpl. by apply prefix_app_r. }
  split.
  { intros fl. split; [apply nodes_addFaces|apply addFaces_prefix]. }
  intros calls w'. destruct (run_appends_prefix w calls) as (Hn & He & Hf).
  split; [done|].
  repeat split; intros i x Hx; eapply prefix_lookup_Some; eauto.
Qed.

(** *** Upper bound on face indices *)

Lemma faces_below_node_count_grow w w' :
  faces w' = faces w → (length (nodes w) ≤ length (nodes w'))%nat →
  faces_below_node_count w → faces_below_node_count w'.
Proof.
  unfold faces_below_node_count, node_count. intros -> Hlen Hw.
  eapply list.Forall_impl; [exact Hw|]. intros face Hface.
  eapply list.Forall_impl; [exact Hface|]. simpl. intros node Hnode. lia.
Qed.

Lemma faces_below_node_count_addFace w l :
  faces_below_node_count w → faces_below_node_count (addFace w l).
Proof.
  unfold addFace. case_decide as Hall; [|done].
  unfold faces_below_node_count, node_count. simpl. intros Hw.
  apply list.Forall_app. split; [done|]. by constructor.
Qed.

Lemma faces_below_node_count_addFaces w fl :
  faces_below_node_count w → faces_below_node_count (addFaces w fl).
Proof.
  revert w. induction fl as [|l fl IH]; intros w Hw; simpl; [done|].
  by apply IH, faces_below_node_count_addFace.
Qed.

Lemma length_dot ns M : length (dot ns M) = length ns.
Proof. unfold dot. apply length_map. Qed.

Lemma faces_below_node_count_run_call w c :
  faces_below_node_count w → faces_below_node_count (run_call w c).
Proof.
  destruct c as [[na|el|fl]|t]; simpl.
  - apply faces_below_node_count_grow; [done|]. simpl. rewrite length_app. lia.
  - by apply faces_below_node_count_grow.
  - apply faces_below_node_count_addFaces.
  - apply faces_below_node_count_grow; destruct t; simpl; rewrite ?length_dot; done.
Qed.

(** What the test of [addFaces] does establish: in every state reached
    from the empty wireframe by method calls, each index of each stored
    face is below the node count. *)
Lemma faces_below_node_count_reachable calls :
  faces_below_node_count (run_calls init calls).
Proof.
  assert (H : ∀ w, faces_below_node_count w → faces_below_node_count (run_calls w calls)).
  { induction calls as [|c calls IH]; intros w Hw; simpl; [done|].
    by apply IH, faces_below_node_count_run_call. }
  apply H. constructor.
Qed.

End geometry_buffer.

(** ** The affine transform engine *)

Section transform_engine.
Import Wireframe.


Lemma nodes_run_transform w t : nodes (run_transform w t) = dot (nodes w) (call_matrix t).
Proof. by destruct t. Qed.

Lemma edges_run_transform w t : edges (run_transform w t) = edges w.
Proof. by destruct t. Qed.

Lemma faces_run_transform w t : faces (run_transform w t) = faces w.
Proof. by destruct t. Qed.

Lemma run_transforms_cons w t ts :
  run_transforms w (t :: ts) = run_transforms (run_transform w t) ts.
Proof. reflexivity. Qed.

Lemma nodes_run_transforms w ts :
  nodes (run_transforms w ts) = map (λ v, foldl vec_mat v (call_matrix <$> ts)) (nodes w).
Proof.
  revert w. induction ts as [|t ts IH]; intros w.
  - simpl. by rewrite map_id.
  - rewrite run_transforms_cons, IH, nodes_run_transform. unfold dot.
    by rewrite map_map.
Qed.

(** C7: a transform call, and any sequence of transform calls, leaves the
    edge list and the face list as they are and keeps the number and the
    order of the nodes: the i-th node after the calls is the i-th node
    before them multiplied by the matrices of the calls in turn. *)
Theorem transforms_keep_topology (w : Wireframe) (ts : list transform_call) :
  let w' := run_transforms w ts in
  let image := λ v, foldl vec_mat v (call_matrix <$> ts) in
  edges w' = edges w
  ∧ faces w' = faces w
  ∧ length (nodes w') = length (nodes w)
  ∧ nodes w' = map image (nodes w)
  ∧ ∀ i, nodes w' !! i = image <$> nodes w !! i.
Proof.
  simpl. split; [|split].
  - revert w. induction ts as [|t ts IH]; intros w; [done|].
    by rewrite run_transforms_cons, IH, edges_run_transform.
  - revert w. induction ts as [|t ts IH]; intros w; [done|].
    by rewrite run_transforms_cons, IH, faces_run_transform.
  - rewrite nodes_run_transforms. split; [by rewrite length_map|].
    split; [done|]. intros i. apply list_lookup_fmap.
Qed.

(** *** Rotations turn the nodes about a line parallel to an axis *)







End transform_engine.

(** ** Reductions along axis 0 *)

Section reductions.
Context (op : R → R → R) (le : R → R → Prop).
Hypothesis op_assoc : ∀ a b c, op (op a b) c = op a (op b c).
Hypothesis op_le_l : ∀ a b, le (op a b) a.
Hypothesis op_le_r : ∀ a b, le (op a b) b.
Hypothesis op_case : ∀ a b, op a b = a ∨ op a b = b.
Hypothesis le_refl : ∀ a, le a a.
Hypothesis le_trans : ∀ a b c, le a b → le b c → le a c.

Lemma pointwise_assoc a b c :
  pointwise op (pointwise op a b) c = pointwise op a (pointwise op b c).
Proof.
  destruct a as [[ax ay] az], b as [[bx by'] bz], c as [[cx cy] cz]. simpl.
  by rewrite !op_assoc.
Qed.

Lemma foldl_pointwise_assoc a b rows :
  foldl (pointwise op) (pointwise op a b) rows
  = pointwise op a (foldl (pointwise op) b rows).
Proof.
  revert b. induction rows as [|r rows IH]; intros b; simpl; [done|].
  by rewrite pointwise_assoc, IH.
Qed.

(** Reducing two arrays one after the other and combining the results is
    reducing their concatenation. *)
Lemma axis_reduce_app rows1 rows2 a b :
  axis_reduce op rows1 = Some a → axis_reduce op rows2 = Some b →
  axis_reduce op (rows1 ++ rows2) = Some (pointwise op a b).
Proof.
  destruct rows1 as [|r1 rows1]; [done|]. destruct rows2 as [|r2 rows2]; [done|].
  simpl. intros [= <-] [= <-]. f_equal.
  by rewrite foldl_app, <- foldl_pointwise_assoc.
Qed.

Lemma axis_reduce_is_Some rows : rows ≠ [] → is_Some (axis_reduce op rows).
Proof. destruct rows; [done|]. intros _. by eexists. Qed.

(** The reduction of the members' reductions is the reduction of all their
    rows taken together. *)
Lemma axis_reduce_members {A} (rows_of : A → list vec3) (members : list A) :
  members ≠ [] → (∀ m, m ∈ members → rows_of m ≠ []) →
  ∃ parts b,
    mapM (λ m, axis_reduce op (rows_of m)) members = Some parts
    ∧ axis_reduce op parts = Some b
    ∧ axis_reduce op (concat (rows_of <$> members)) = Some b.
Proof.
  induction members as [|m members IH]; [done|]. intros _ Hrows.
  destruct (axis_reduce_is_Some (rows_of m)) as [a Ha]; [apply Hrows; left|].
  assert (Hcons : ∀ l, mapM (λ m, axis_reduce op (rows_of m)) (m :: l)
                      = k ← mapM (λ m, axis_reduce op (rows_of m)) l; Some (a :: k)).
  { intros l. change (mapM ?f (m :: l)) with (y ← f m; k ← mapM f l; mret (y :: k)).
    cbv beta. by rewrite Ha. }
  destruct members as [|m' members].
  - exists [a], a. rewrite Hcons. split; [done|]. split; [done|].
    rewrite list_fmap_singleton. simpl. by rewrite app_nil_r.
  - destruct IH as (parts & b & Hparts & Hb & Hall);
      [done|by intros ? ?; apply Hrows; right|].
    exists (a :: parts), (pointwise op a b). rewrite Hcons, Hparts.
    split; [done|]. split.
    + by apply (axis_reduce_app [a] parts).
    + rewrite fmap_cons. change (concat (?x :: ?l)) with (x ++ concat l).
      by apply axis_reduce_app.
Qed.


End reductions.

Lemma Rmin_assoc' a b c : Rmin (Rmin a b) c = Rmin a (Rmin b c).
Proof. unfold Rmin. repeat destruct (Rle_dec _ _); lra. Qed.

Lemma Rmax_assoc' a b c : Rmax (Rmax a b) c = Rmax a (Rmax b c).
Proof. unfold Rmax. repeat destruct (Rle_dec _ _); lra. Qed.





(** ** Groups *)

Section group.

Lemma occurrences_cons r r' refs :
  occurrences r (r' :: refs)
  = if decide (r' = r) then S (occurrences r refs) else occurrences r refs.
Proof.
  unfold occurrences. rewrite filter_cons. by case_decide.
Qed.

Lemma occurrences_not_elem r refs : r ∉ refs → occurrences r refs = 0%nat.
Proof.
  induction refs as [|r' refs IH]; [done|]. intros Hnot.
  rewrite occurrences_cons. apply not_elem_of_cons in Hnot as [Hne Hnot].
  case_decide; [congruence|]. by apply IH.
Qed.

Lemma occurrences_NoDup r refs : NoDup refs → r ∈ refs → occurrences r refs = 1%nat.
Proof.
  induction 1 as [|r' refs Hnot _ IH]; intros Hin; [by apply elem_of_nil in Hin|].
  rewrite occurrences_cons. case_decide as Heq.
  - subst r'. by rewrite occurrences_not_elem.
  - apply elem_of_cons in Hin as [->|Hin]; [done|]. by apply IH.
Qed.

(** The loop over [values()] calls the method on the object of each name. *)
Lemma for_each_called_on_each method refs st :
  called_on_each method refs st (WireframeGroup.for_each method refs st).
Proof.
  unfold called_on_each. revert st. induction refs as [|r' refs IH]; intros st r; [done|].
  unfold WireframeGroup.for_each in *. simpl. rewrite IH, occurrences_cons.
  case_decide as Heq.
  - subst r'. rewrite fn_lookup_alter. by rewrite Nat.iter_succ_r.
  - by rewrite fn_lookup_alter_ne.
Qed.

(** With distinct member objects each member is called once, and an object
    outside the group is left alone. *)
Lemma called_on_each_distinct method refs st st' :
  called_on_each method refs st st' →
  (∀ r, r ∉ refs → st' r = st r)
  ∧ (NoDup refs → ∀ r, r ∈ refs → st' r = method (st r)).
Proof.
  intros Hcalled. split.
  - intros r Hr. by rewrite Hcalled, occurrences_not_elem.
  - intros Hnd r Hr. by rewrite Hcalled, occurrences_NoDup.
Qed.

Lemma xyz_all_nodes g st :
  concat ((λ r, xyz <$> nodes (st r)) <$> WireframeGroup.values g)
  = xyz <$> all_nodes g st.
Proof.
  unfold all_nodes. induction (WireframeGroup.values g) as [|r refs IH]; [done|].
  rewrite !fmap_cons. simpl. by rewrite fmap_app, IH.
Qed.

(** The centre of a group with at least one member, each with at least one
    node. *)
Lemma group_findCentre_spec (g : WireframeGroup) (st : store) :
  WireframeGroup.values g ≠ [] →
  (∀ r, r ∈ WireframeGroup.values g → nodes (st r) ≠ []) →
  ∃ mins maxs lo hi,
    mapM (λ r, axis_min (xyz <$> nodes (st r))) (WireframeGroup.values g) = Some mins
    ∧ mapM (λ r, axis_max (xyz <$> nodes (st r))) (WireframeGroup.values g) = Some maxs
    ∧ axis_min mins = Some lo
    ∧ axis_max maxs = Some hi
    ∧ WireframeGroup.findCentre g st = Some (midpoint lo hi)
    ∧ axis_min (xyz <$> all_nodes g st) = Some lo
    ∧ axis_max (xyz <$> all_nodes g st) = Some hi.
Proof.
  intros Hne Hnodes.
  assert (Hrows : ∀ r, r ∈ WireframeGroup.values g → xyz <$> nodes (st r) ≠ []).
  { intros r Hr Hnil. apply fmap_nil_inv in Hnil. by apply (Hnodes r). }
  destruct (axis_reduce_members Rmin Rmin_assoc' (λ r, xyz <$> nodes (st r))
              (WireframeGroup.values g) Hne Hrows) as (mins & lo & Hmins & Hlo & Hall_lo).
  destruct (axis_reduce_members Rmax Rmax_assoc' (λ r, xyz <$> nodes (st r))
              (WireframeGroup.values g) Hne Hrows) as (maxs & hi & Hmaxs & Hhi & Hall_hi).
  rewrite xyz_all_nodes in Hall_lo, Hall_hi.
  exists mins, maxs, lo, hi. repeat split; try done.
  unfold WireframeGroup.findCentre, axis_min, axis_max.
  change (map xyz) with (fmap (M:=list) xyz).
  rewrite Hmins. simpl. rewrite Hlo. simpl. rewrite Hmaxs. simpl. by rewrite Hhi.
Qed.










End group.

(** ** The centre of one wireframe *)

Section centre_of_wireframe.
Import Wireframe.
#[local] Open Scope R_scope.




End centre_of_wireframe.

(** ** More on groups *)

Section group_operations.
#[local] Open Scope R_scope.

(** X12: [addWireframe] binds the name to the wireframe and leaves the other
    names as they are; the wireframe is then among the members.  Under a
    new name the members are the old ones and the new one; under a name
    already in use the entry is replaced and the group does not grow. *)
Theorem addWireframe_registers (g : WireframeGroup) (name : string) (wireframe : ref) :
  let g' := WireframeGroup.addWireframe g name wireframe in
  wireframes g' !! name = Some wireframe
  ∧ (∀ other, other ≠ name → wireframes g' !! other = wireframes g !! other)
  ∧ wireframe ∈ WireframeGroup.values g'
  ∧ (wireframes g !! name = None →
     WireframeGroup.values g' ≡ₚ wireframe :: WireframeGroup.values g)
  ∧ (is_Some (wireframes g !! name) →
     length (WireframeGroup.values g') = length (WireframeGroup.values g)).
Proof.
  simpl. unfold WireframeGroup.values. simpl. repeat split.
  - apply lookup_insert_eq.
  - intros other Hne. by apply lookup_insert_ne.
  - apply list_elem_of_fmap. exists (name, wireframe). split; [done|].
    apply elem_of_map_to_list, lookup_insert_eq.
  - intros Hnew. by rewrite map_to_list_insert.
  - intros Hold. rewrite !length_fmap, !length_map_to_list.
    by apply map_size_insert_Some.
Qed.

(** X13: the group's [translate] and [scale] call the member's method with
    the same arguments on the object of every name: an object outside the
    group is left alone, and when the names denote distinct objects each
    member is translated, or scaled, exactly once. *)
Theorem group_broadcast (g : WireframeGroup) (st : store) (dx dy dz s x y z : R) :
  let moved := WireframeGroup.translate g dx dy dz st in
  let scaled := WireframeGroup.scale g s (x, y, z) st in
  called_on_each (λ w, Wireframe.translate w dx dy dz) (WireframeGroup.values g) st moved
  ∧ called_on_each (λ w, Wireframe.scale w s x y z) (WireframeGroup.values g) st scaled
  ∧ (∀ r, r ∉ WireframeGroup.values g → moved r = st r ∧ scaled r = st r)
  ∧ (NoDup (WireframeGroup.values g) → ∀ r, r ∈ WireframeGroup.values g →
     moved r = Wireframe.translate (st r) dx dy dz
     ∧ scaled r = Wireframe.scale (st r) s x y z).
Proof.
  simpl.
  pose proof (for_each_called_on_each (λ w, Wireframe.translate w dx dy dz)
                (WireframeGroup.values g) st) as Ht.
  pose proof (for_each_called_on_each (λ w, Wireframe.scale w s x y z)
                (WireframeGroup.values g) st) as Hs.
  split; [exact Ht|]. split; [exact Hs|].
  apply called_on_each_distinct in Ht as [Ht0 Ht1].
  apply called_on_each_distinct in Hs as [Hs0 Hs1].
  split.
  - intros r Hr. split; [by apply Ht0|by apply Hs0].
  - intros Hnd r Hr. split; [by apply Ht1|by apply Hs1].
Qed.


Lemma members_with_nodes (st : store) (refs : list ref) :
  Forall (λ r, nodes (st r) ≠ []) refs ∨ Exists (λ r, nodes (st r) = []) refs.
Proof.
  induction refs as [|r refs IH]; [by left|].
  destruct (nodes (st r)) eqn:Hr; [right; by left|].
  destruct IH as [IH|IH].
  - left. constructor; [by rewrite Hr|done].
  - right. by right.
Qed.

(** X16: [findCentre] of a group, and with it a rotation whose centre is
    omitted, raises exactly when the group has no member or some member has
    no node. *)
Theorem group_centre_fails_iff (g : WireframeGroup) (st : store) (radians : R) :
  let fails := WireframeGroup.values g = []
               ∨ ∃ r, r ∈ WireframeGroup.values g ∧ nodes (st r) = [] in
  (WireframeGroup.findCentre g st = None ↔ fails)
  ∧ (WireframeGroup.rotateX g radians None st = None ↔ fails)
  ∧ (WireframeGroup.rotateY g radians None st = None ↔ fails)
  ∧ (WireframeGroup.rotateZ g radians None st = None ↔ fails).
Proof.
  simpl.
  assert (Hcentre : WireframeGroup.findCentre g st = None
                    ↔ WireframeGroup.values g = []
                      ∨ ∃ r, r ∈ WireframeGroup.values g ∧ nodes (st r) = []).
  { split.
    - intros Hnone.
      destruct (decide (WireframeGroup.values g = [])) as [|Hne]; [by left|]. right.
      destruct (members_with_nodes st (WireframeGroup.values g)) as [Hall|Hex].
      + rewrite list.Forall_forall in Hall.
        destruct (group_findCentre_spec g st Hne Hall)
          as (? & ? & ? & ? & _ & _ & _ & _ & Hsome & _). congruence.
      + by apply list.Exists_exists in Hex.
    - unfold WireframeGroup.findCentre. intros [Hnil|(r & Hr & Hnodes)].
      + by rewrite Hnil.
      + assert (Hnone : mapM (λ wireframe, axis_min (map xyz (nodes (st wireframe))))
                          (WireframeGroup.values g) = None).
        { apply mapM_None, list.Exists_exists. exists r. split; [done|]. by rewrite Hnodes. }
        by rewrite Hnone. }
  split; [exact Hcentre|].
  unfold WireframeGroup.rotateX, WireframeGroup.rotateY, WireframeGroup.rotateZ.
  rewrite <- Hcentre.
  destruct (WireframeGroup.findCentre g st) as [[[cx cy] cz]|]; simpl; by repeat split.
Qed.

(** X17: the centre of a group with a single member is the centre of that
    member, and raises when the member's does. *)
Theorem single_member_centre (name : string) (r : ref) (st : store) :
  WireframeGroup.findCentre
    (WireframeGroup.addWireframe WireframeGroup.init name r) st
  = Wireframe.findCentre (st r).
Proof.
  unfold WireframeGroup.findCentre, WireframeGroup.values, WireframeGroup.addWireframe.
  simpl. rewrite insert_empty, map_to_list_singleton. simpl.
  unfold Wireframe.findCentre.
  destruct (axis_min _) as [lo|]; simpl; [|done].
  by destruct (axis_max _) as [hi|].
Qed.

End group_operations.

(** ** The shape generators *)

Section cuboid.
Import Wireframe.
#[local] Open Scope R_scope.

(** X18: whatever the corner and the size, [getCuboid] returns the 8 corners
    in the order of the comprehension, the 6 faces as given and 18 edges:
    none of its faces is dropped, and since [addEdges] compares ordered
    pairs, 6 of the 12 edges of the box are stored twice, once in each
    direction.  Every face index and edge end is one of 0..7. *)
Theorem getCuboid_structure (x y z w h d : R) :
  let cuboid := getCuboid (x, y, z) (w, h, d) in
  nodes cuboid
  = [(x, y, z, 1); (x, y, z + d, 1); (x, y + h, z, 1); (x, y + h, z + d, 1);
     (x + w, y, z, 1); (x + w, y, z + d, 1); (x + w, y + h, z, 1);
     (x + w, y + h, z + d, 1)]
  ∧ faces cuboid
    = [[0; 1; 3; 2]; [4; 5; 7; 6]; [0; 1; 5; 4]; [2; 3; 7; 6]; [0; 2; 6; 4];
       [1; 3; 7; 5]]%Z
  ∧ edges cuboid
    = [(2, 0); (0, 1); (1, 3); (3, 2); (6, 4); (4, 5); (5, 7); (7, 6); (4, 0);
       (1, 5); (5, 4); (6, 2); (2, 3); (3, 7); (0, 2); (2, 6); (5, 1); (7, 5)]%Z
  ∧ length (filter (λ e, (e.2, e.1) ∈ edges cuboid) (edges cuboid)) = 12%nat
  ∧ Forall (Forall (λ node, 0 ≤ node < 8)%Z) (faces cuboid)
  ∧ Forall (λ e, (0 ≤ e.1 < 8)%Z ∧ (0 ≤ e.2 < 8)%Z) (edges cuboid).
Proof.
  intros cuboid.
  assert (Hn : nodes cuboid
               = [(x, y, z, 1); (x, y, z + d, 1); (x, y + h, z, 1);
                  (x, y + h, z + d, 1); (x + w, y, z, 1); (x + w, y, z + d, 1);
                  (x + w, y + h, z, 1); (x + w, y + h, z + d, 1)])
    by (vm_compute; reflexivity).
  assert (He : edges cuboid
               = [(2, 0); (0, 1); (1, 3); (3, 2); (6, 4); (4, 5); (5, 7); (7, 6);
                  (4, 0); (1, 5); (5, 4); (6, 2); (2, 3); (3, 7); (0, 2); (2, 6);
                  (5, 1); (7, 5)]%Z) by (vm_compute; reflexivity).
  assert (Hf : faces cuboid
               = [[0; 1; 3; 2]; [4; 5; 7; 6]; [0; 1; 5; 4]; [2; 3; 7; 6];
                  [0; 2; 6; 4]; [1; 3; 7; 5]]%Z) by (vm_compute; reflexivity).
  rewrite Hn, He, Hf. clear Hn He Hf cuboid.
  split; [reflexivity|]. split; [reflexivity|]. split; [reflexivity|].
  split; [vm_compute; reflexivity|].
  split; repeat constructor; vm_compute; congruence.
Qed.

End cuboid.

Section comprehensions.

Lemma length_bind_const {A B} (f : A → list B) (l : list A) (k : nat) :
  (∀ x, x ∈ l → length (f x) = k) → length (l ≫= f) = (length l * k)%nat.
Proof.
  induction l as [|x l IH]; intros Hk; [done|].
  rewrite bind_cons, length_app, Hk, IH; [simpl; lia| |left].
  intros y Hy. apply Hk. by right.
Qed.

(** The element at position [i * k + j] of a comprehension whose inner lists
    all have length [k]. *)
Lemma lookup_bind_const {A B} (f : A → list B) (l : list A) (k i j : nat) x :
  (∀ y, y ∈ l → length (f y) = k) → l !! i = Some x → (j < k)%nat →
  (l ≫= f) !! (i * k + j)%nat = f x !! j.
Proof.
  revert i. induction l as [|y l IH]; intros i Hk Hi Hj; [done|].
  rewrite bind_cons. destruct i as [|i]; simpl in *.
  - injection Hi as ->. rewrite lookup_app_l; [done|]. rewrite Hk; [done|left].
  - rewrite lookup_app_r; rewrite (Hk y); try left; [|lia].
    replace (k + i * k + j - k)%nat with (i * k + j)%nat by lia.
    apply IH; [|done..]. intros y' Hy'. apply Hk. by right.
Qed.

Lemma filter_all {A} (P : A → Prop) `{!∀ x, Decision (P x)} (l : list A) :
  Forall P l → filter P l = l.
Proof.
  induction 1 as [|x l Hx _ IH]; [done|]. by rewrite filter_cons_True, IH.
Qed.

Context {B : Type} (g : Z → Z → B).

(** [[g n1 n2 for n1 in range(a) for n2 in range(b)]] *)
Lemma elem_of_comprehension (a b : Z) (e : B) :
  e ∈ (n1 ← seqZ 0 a; n2 ← seqZ 0 b; [g n1 n2])
  ↔ ∃ n1 n2, (0 ≤ n1 < a) ∧ (0 ≤ n2 < b) ∧ e = g n1 n2.
Proof.
  rewrite list_elem_of_bind. split.
  - intros (n1 & He & Hn1). apply list_elem_of_bind in He as (n2 & He & Hn2).
    apply list_elem_of_singleton in He. apply elem_of_seqZ in Hn1, Hn2.
    exists n1, n2. repeat split; try done; lia.
  - intros (n1 & n2 & Hn1 & Hn2 & ->). exists n1. split.
    + apply list_elem_of_bind. exists n2. split; [by left|]. apply elem_of_seqZ. lia.
    + apply elem_of_seqZ. lia.
Qed.

Lemma length_comprehension (a b : Z) :
  0 ≤ a → 0 ≤ b →
  Z.of_nat (length (n1 ← seqZ 0 a; n2 ← seqZ 0 b; [g n1 n2])) = a * b.
Proof.
  intros Ha Hb. rewrite (length_bind_const _ _ (Z.to_nat b)).
  - rewrite length_seqZ. nia.
  - intros n1 _. rewrite (length_bind_const _ _ 1); [|done].
    rewrite length_seqZ. lia.
Qed.

Lemma lookup_comprehension (a b n1 n2 : Z) :
  0 ≤ n1 < a → 0 ≤ n2 < b →
  (n1 ← seqZ 0 a; n2 ← seqZ 0 b; [g n1 n2]) !! Z.to_nat (n1 * b + n2)
  = Some (g n1 n2).
Proof.
  intros Hn1 Hn2.
  replace (Z.to_nat (n1 * b + n2))
    with (Z.to_nat n1 * Z.to_nat b + Z.to_nat n2)%nat by nia.
  assert (Hlen : ∀ m, length (n2 ← seqZ 0 b; [g m n2]) = Z.to_nat b).
  { intros m. rewrite (length_bind_const _ _ 1); [|done]. rewrite length_seqZ. lia. }
  rewrite (lookup_bind_const _ _ (Z.to_nat b) _ _ n1); [|by intros|..|lia].
  - replace (Z.to_nat n2) with (Z.to_nat n2 * 1 + 0)%nat by lia.
    rewrite (lookup_bind_const _ _ 1 _ _ n2); [done|done| |lia].
    replace n2 with (0 + Z.of_nat (Z.to_nat n2)) at 2 by lia.
    apply lookup_seqZ_lt. lia.
  - replace n1 with (0 + Z.of_nat (Z.to_nat n1)) at 2 by lia.
    apply lookup_seqZ_lt. lia.
Qed.

Lemma NoDup_comprehension (a b : Z) :
  (∀ n1 n2 n1' n2', 0 ≤ n1 < a → 0 ≤ n2 < b → 0 ≤ n1' < a → 0 ≤ n2' < b →
     g n1 n2 = g n1' n2' → n1 = n1' ∧ n2 = n2') →
  NoDup (n1 ← seqZ 0 a; n2 ← seqZ 0 b; [g n1 n2]).
Proof.
  intros Hinj. apply NoDup_bind; [| |apply NoDup_seqZ].
  - intros n1 n1' e Hn1 Hn1' He He'.
    apply list_elem_of_bind in He as (n2 & He & Hn2).
    apply list_elem_of_bind in He' as (n2' & He' & Hn2').
    apply list_elem_of_singleton in He, He'. subst e.
    apply elem_of_seqZ in Hn1, Hn1', Hn2, Hn2'.
    apply (Hinj n1 n2 n1' n2'); (done || lia).
  - intros n1 Hn1. apply NoDup_bind; [| |apply NoDup_seqZ].
    + intros n2 n2' e Hn2 Hn2' He He'.
      apply list_elem_of_singleton in He, He'. subst e.
      apply elem_of_seqZ in Hn1, Hn2, Hn2'.
      apply (Hinj n1 n2 n1 n2'); (done || lia).
    + intros n2 _. apply NoDup_singleton.
Qed.

End comprehensions.

Section grid.
Import Wireframe.

Lemma index_injective (k n1 n2 n1' n2' : Z) :
  0 ≤ n2 < k → 0 ≤ n2' < k → n1 * k + n2 = n1' * k + n2' → n1 = n1' ∧ n2 = n2'.
Proof.
  intros H2 H2' Heq.
  destruct (Z.lt_trichotomy n1 n1') as [H|[H|H]].
  - exfalso. nia.
  - subst n1'. split; [done|lia].
  - exfalso. nia.
Qed.

(** X20: for counts nx ≥ 0 and nz ≥ 0, [getHorizontalGrid] returns a
    wireframe of (nx+1)·(nz+1) nodes, the node of index n1·(nz+1)+n2 lying at
    (x + n1·dx, y, z + n2·dz), with no face and with all the edges of its
    two comprehensions, none filtered out: (nx+1)·nz + nx·(nz+1) edges, each
    from a node to a node of higher index below the node count, and no
    edge twice, in either direction. *)
Theorem getHorizontalGrid_structure (x y z dx dz : R) (nx nz : Z) :
  0 ≤ nx → 0 ≤ nz →
  ∃ grid,
    getHorizontalGrid (x, y, z) (dx, dz) (nx, nz) = Some grid
    ∧ node_count grid = (nx + 1) * (nz + 1)
    ∧ (∀ n1 n2, 0 ≤ n1 ≤ nx → 0 ≤ n2 ≤ nz →
         nodes grid !! Z.to_nat (n1 * (nz + 1) + n2)
         = Some (x + IZR n1 * dx, y, z + IZR n2 * dz, 1)%R)
    ∧ faces grid = []
    ∧ edges grid
      = (n1 ← seqZ 0 (nx + 1); n2 ← seqZ 0 nz;
         [(n1 * (nz + 1) + n2, n1 * (nz + 1) + n2 + 1)])
        ++ (n1 ← seqZ 0 nx; n2 ← seqZ 0 (nz + 1);
            [(n1 * (nz + 1) + n2, (n1 + 1) * (nz + 1) + n2)])
    ∧ Z.of_nat (length (edges grid)) = (nx + 1) * nz + nx * (nz + 1)
    ∧ Forall (λ e, 0 ≤ e.1 ∧ e.1 < e.2 ∧ e.2 < node_count grid) (edges grid)
    ∧ NoDup (edges grid).
Proof.
  intros Hnx Hnz. unfold getHorizontalGrid.
  set (rows := n1 ← seqZ 0 (nx + 1); n2 ← seqZ 0 (nz + 1);
               [(x + IZR n1 * dx, y, z + IZR n2 * dz)%R]).
  set (e1 := n1 ← seqZ 0 (nx + 1); n2 ← seqZ 0 nz;
             [(n1 * (nz + 1) + n2, n1 * (nz + 1) + n2 + 1)]).
  set (e2 := n1 ← seqZ 0 nx; n2 ← seqZ 0 (nz + 1);
             [(n1 * (nz + 1) + n2, (n1 + 1) * (nz + 1) + n2)]).
  assert (Hlen : Z.of_nat (length rows) = (nx + 1) * (nz + 1))
    by (apply length_comprehension; lia).
  assert (Hrows : addNodes_of_list init rows = Some (addNodes init rows)).
  { destruct rows; [simpl in Hlen; nia|done]. }
  rewrite Hrows.
  assert (Hdisj : Forall (λ e, e ∉ e1) e2).
  { apply list.Forall_forall. intros e He2 He1.
    apply elem_of_comprehension in He1 as (n1 & n2 & ? & ? & ->).
    apply elem_of_comprehension in He2 as (n1' & n2' & ? & ? & [= H1 H2]). nia. }
  set (grid := addEdges (addEdges (addNodes init rows) e1) e2).
  assert (Hnodes : nodes grid = (λ p : vec3, let '(x, y, z) := p in (x, y, z, 1%R)) <$> rows)
    by reflexivity.
  assert (Hfaces : faces grid = []) by reflexivity.
  assert (Hedges : edges grid = e1 ++ e2).
  { unfold grid, addEdges, addNodes, init. cbn [edges nodes faces].
    rewrite !app_nil_l.
    rewrite (filter_all _ e1); [|apply list.Forall_forall; intros ? _; apply not_elem_of_nil].
    by rewrite (filter_all _ e2). }
  exists grid. split; [reflexivity|]. unfold node_count. rewrite Hnodes, Hfaces, Hedges.
  clearbody grid.
  split; [|split; [|split; [done|split; [done|split; [|split]]]]].
  - by rewrite length_fmap.
  - intros n1 n2 Hn1 Hn2. rewrite list_lookup_fmap.
    unfold rows. rewrite lookup_comprehension; [done|lia|lia].
  - rewrite length_app. unfold e1, e2.
    pose proof (length_comprehension
                  (λ n1 n2, (n1 * (nz + 1) + n2, n1 * (nz + 1) + n2 + 1))
                  (nx + 1) nz) as H1.
    pose proof (length_comprehension
                  (λ n1 n2, (n1 * (nz + 1) + n2, (n1 + 1) * (nz + 1) + n2))
                  nx (nz + 1)) as H2.
    simpl in H1, H2. lia.
  - rewrite length_fmap, Hlen.
    apply list.Forall_app. split; apply list.Forall_forall; intros e He.
    + apply elem_of_comprehension in He as (n1 & n2 & ? & ? & ->). simpl. nia.
    + apply elem_of_comprehension in He as (n1 & n2 & ? & ? & ->). simpl. nia.
  - apply list.NoDup_app. split; [|split].
    + apply NoDup_comprehension. intros n1 n2 n1' n2' ? ? ? ? [= H1 H2].
      apply (index_injective (nz + 1)); [lia..|done].
    + intros e He1 He2. rewrite list.Forall_forall in Hdisj. by apply (Hdisj e).
    + apply NoDup_comprehension. intros n1 n2 n1' n2' ? ? ? ? [= H1 H2].
      apply (index_injective (nz + 1)); [lia..|done].
Qed.

Lemma getHorizontalGrid_structure_witness :
  ∃ grid,
    getHorizontalGrid (0, 0, 0)%R (1, 1)%R (2, 3) = Some grid
    ∧ node_count grid = (2 + 1) * (3 + 1)
    ∧ Z.of_nat (length (edges grid)) = (2 + 1) * 3 + 2 * (3 + 1).
Proof.
  destruct (getHorizontalGrid_structure 0 0 0 1 1 2 3) as (grid & H & Hn & _ & _ & _ & He & _);
    [lia|lia|].
  exists grid. split; [exact H|]. split; [exact Hn|exact He].
Defined.

(** X21: [getHorizontalGrid] raises exactly when a count is negative: the
    node array is then empty and [addNodes] cannot stack it. *)
Theorem getHorizontalGrid_fails_iff (x y z dx dz : R) (nx nz : Z) :
  getHorizontalGrid (x, y, z) (dx, dz) (nx, nz) = None ↔ nx < 0 ∨ nz < 0.
Proof.
  split.
  - intros Hnone. destruct (decide (nx < 0)); [by left|].
    destruct (decide (nz < 0)); [by right|].
    destruct (getHorizontalGrid_structure x y z dx dz nx nz) as (grid & H & _); [lia..|].
    congruence.
  - intros Hneg. unfold getHorizontalGrid.
    assert (Hrows : (n1 ← seqZ 0 (nx + 1); n2 ← seqZ 0 (nz + 1);
                     [(x + IZR n1 * dx, y, z + IZR n2 * dz)%R]) = []).
    { destruct Hneg as [Hneg|Hneg].
      - by rewrite (seqZ_nil 0 (nx + 1)) by lia.
      - rewrite (seqZ_nil 0 (nz + 1)) by lia.
        induction (seqZ 0 (nx + 1)) as [|n l IH]; [done|]. by rewrite bind_cons, IH. }
    by rewrite Hrows.
Qed.

End grid.

Section spheroid.
Import Wireframe.

(** Loops whose indices are all below the node count are all appended. *)
Lemma addFaces_accepted w fl :
  Forall (Forall (λ node, node < node_count w)) fl →
  nodes (addFaces w fl) = nodes w ∧ faces (addFaces w fl) = faces w ++ fl.
Proof.
  split; [apply nodes_addFaces|].
  revert w H. induction fl as [|l fl IH]; intros w Hfl.
  - by rewrite app_nil_r.
  - apply list.Forall_cons in Hfl as [Hl Hfl]. rewrite addFaces_cons, IH.
    + unfold addFace. rewrite decide_True by done. simpl.
      by rewrite <- app_assoc.
    + unfold node_count in *. by rewrite nodes_addFace.
Qed.

Lemma addNodes_of_list_Some w rows :
  rows ≠ [] → addNodes_of_list w rows = Some (addNodes w rows).
Proof. by destruct rows. Qed.

Lemma range3_length (resolution : Z) :
  2 ≤ resolution →
  (resolution * (resolution - 1) - resolution - 0 + resolution - 1) `div` resolution
  = resolution - 2.
Proof.
  intros Hres. symmetry. apply (Z.div_unique _ _ _ (resolution - 1)); [lia|nia].
Qed.

Lemma elem_of_range3 (resolution m : Z) :
  2 ≤ resolution →
  m ∈ range3 0 (resolution * (resolution - 1) - resolution) resolution →
  ∃ i, 0 ≤ i < resolution - 2 ∧ m = i * resolution.
Proof.
  intros Hres. unfold range3. rewrite range3_length by done.
  intros (i & -> & Hi)%list_elem_of_fmap. apply elem_of_seqZ in Hi.
  exists i. split; lia.
Qed.

(** X22: for a resolution of at least 2, [getSpheroid] returns a wireframe of
    resolution·(resolution−1) + 2 nodes, the last two being the poles
    (x, y+ry, z) and (x, y−ry, z), and every loop the generator passes to
    [addFaces] is accepted: the faces are the quadrilaterals followed by the
    triangles around either pole, resolution² in all, and each of their
    indices denotes a node. *)
Theorem getSpheroid_structure (x y z rx ry rz : R) (resolution : Z) :
  2 ≤ resolution →
  let num_nodes := resolution * (resolution - 1) in
  ∃ spheroid,
    getSpheroid (x, y, z) (rx, ry, rz) resolution = Some spheroid
    ∧ node_count spheroid = num_nodes + 2
    ∧ nodes spheroid !! Z.to_nat num_nodes = Some (x, y + ry, z, 1)%R
    ∧ nodes spheroid !! Z.to_nat (num_nodes + 1) = Some (x, y - ry, z, 1)%R
    ∧ faces spheroid
      = (n ← seqZ 0 resolution; m ← range3 0 (num_nodes - resolution) resolution;
         [[m + n;
           m + (n + 1) `mod` resolution;
           (m + resolution) `mod` resolution ^ 2 + (n + 1) `mod` resolution;
           (m + resolution) `mod` num_nodes + n]])
        ++ ((λ n, [num_nodes + 1; (n + 1) `mod` resolution; n]) <$> seqZ 0 resolution)
        ++ ((λ n, [num_nodes; num_nodes - resolution + n;
                   num_nodes - resolution + (n + 1) `mod` resolution])
              <$> seqZ 0 resolution)
    ∧ Z.of_nat (length (faces spheroid)) = resolution * resolution
    ∧ Forall (Forall (λ node, 0 ≤ node < node_count spheroid)) (faces spheroid).
Proof.
  intros Hres num_nodes. unfold getSpheroid. fold num_nodes.
  set (latitudes := (λ n, IZR n * PI / IZR resolution)%R <$> seqZ 1 (resolution - 1)).
  set (longitudes := (λ n, IZR n * 2 * PI / IZR resolution)%R <$> seqZ 0 resolution).
  set (rows := m ← latitudes; n ← longitudes;
               [(x + rx * sin n * sin m, y - ry * cos m, z - rz * cos n * sin m)%R]).
  set (quads := n ← seqZ 0 resolution; m ← range3 0 (num_nodes - resolution) resolution;
                [[m + n;
                  m + (n + 1) `mod` resolution;
                  (m + resolution) `mod` resolution ^ 2 + (n + 1) `mod` resolution;
                  (m + resolution) `mod` num_nodes + n]]).
  set (lower := (λ n, [num_nodes + 1; (n + 1) `mod` resolution; n]) <$> seqZ 0 resolution).
  set (upper := (λ n, [num_nodes; num_nodes - resolution + n;
                       num_nodes - resolution + (n + 1) `mod` resolution])
                  <$> seqZ 0 resolution).
  assert (Hlen : Z.of_nat (length rows) = num_nodes).
  { unfold rows. rewrite (length_bind_const _ _ (Z.to_nat resolution)).
    - unfold latitudes. rewrite length_fmap, length_seqZ. unfold num_nodes. nia.
    - intros m _. rewrite (length_bind_const _ _ 1); [|done].
      unfold longitudes. rewrite length_fmap, length_seqZ. lia. }
  assert (Hrows : rows ≠ []).
  { intros Hnil. rewrite Hnil in Hlen. simpl in Hlen. unfold num_nodes in Hlen. nia. }
  rewrite (addNodes_of_list_Some _ _ Hrows). simpl.
  set (s1 := addNodes init rows).
  assert (Hn1 : node_count s1 = num_nodes).
  { unfold node_count, s1. simpl. by rewrite length_map. }
  assert (Hquads : Forall (Forall (λ node, 0 ≤ node < num_nodes)) quads).
  { apply list.Forall_forall. intros face Hface.
    apply list_elem_of_bind in Hface as (n & Hface & Hn).
    apply list_elem_of_bind in Hface as (m & Hface & Hm).
    apply list_elem_of_singleton in Hface as ->.
    apply elem_of_seqZ in Hn. apply elem_of_range3 in Hm as (i & Hi & ->); [|done].
    pose proof (Z.mod_pos_bound (n + 1) resolution ltac:(lia)) as Hmod1.
    pose proof (Z.mod_pos_bound (i * resolution + resolution) (resolution ^ 2)
                  ltac:(nia)) as Hmod2.
    pose proof (Z.mod_le (i * resolution + resolution) (resolution ^ 2)
                  ltac:(nia) ltac:(nia)) as Hle2.
    pose proof (Z.mod_pos_bound (i * resolution + resolution) num_nodes
                  ltac:(unfold num_nodes; nia)) as Hmod3.
    pose proof (Z.mod_le (i * resolution + resolution) num_nodes
                  ltac:(nia) ltac:(unfold num_nodes; nia)) as Hle3.
    unfold num_nodes in *. repeat constructor; nia. }
  assert (Hs2 : Forall (Forall (λ node, node < node_count s1)) quads).
  { rewrite Hn1. eapply list.Forall_impl; [exact Hquads|]. intros face Hface.
    eapply list.Forall_impl; [exact Hface|]. simpl. lia. }
  destruct (addFaces_accepted s1 quads Hs2) as [Hns2 Hfs2].
  set (s2 := addFaces s1 quads) in *.
  set (s3 := addNodes s2 [(x, y + ry, z); (x, y - ry, z)]%R).
  assert (Hn3 : node_count s3 = num_nodes + 2).
  { unfold node_count in *. unfold s3, addNodes. cbn [nodes].
    rewrite length_app, Hns2, length_map. cbn [length]. lia. }
  assert (Hlower : Forall (Forall (λ node, 0 ≤ node < num_nodes + 2)) lower).
  { apply list.Forall_fmap, list.Forall_forall. intros n Hn. apply elem_of_seqZ in Hn.
    pose proof (Z.mod_pos_bound (n + 1) resolution ltac:(lia)) as Hmod1.
    unfold num_nodes in *. simpl. repeat constructor; nia. }
  assert (Hupper : Forall (Forall (λ node, 0 ≤ node < num_nodes + 2)) upper).
  { apply list.Forall_fmap, list.Forall_forall. intros n Hn. apply elem_of_seqZ in Hn.
    pose proof (Z.mod_pos_bound (n + 1) resolution ltac:(lia)) as Hmod1.
    unfold num_nodes in *. simpl. repeat constructor; nia. }
  assert (Hs4 : Forall (Forall (λ node, node < node_count s3)) lower).
  { rewrite Hn3. eapply list.Forall_impl; [exact Hlower|]. intros face Hface.
    eapply list.Forall_impl; [exact Hface|]. simpl. lia. }
  destruct (addFaces_accepted s3 lower Hs4) as [Hns4 Hfs4].
  set (s4 := addFaces s3 lower) in *.
  assert (Hs5 : Forall (Forall (λ node, node < node_count s4)) upper).
  { unfold node_count. rewrite Hns4. fold (node_count s3). rewrite Hn3.
    eapply list.Forall_impl; [exact Hupper|]. intros face Hface.
    eapply list.Forall_impl; [exact Hface|]. simpl. lia. }
  destruct (addFaces_accepted s4 upper Hs5) as [Hns5 Hfs5].
  set (s5 := addFaces s4 upper) in *.
  assert (Hnodes : nodes s5 = nodes s1 ++ [(x, y + ry, z, 1); (x, y - ry, z, 1)]%R).
  { rewrite Hns5, Hns4. unfold s3. simpl. by rewrite Hns2. }
  assert (Hfaces : faces s5 = quads ++ lower ++ upper).
  { rewrite Hfs5, Hfs4. unfold s3. simpl. rewrite Hfs2. unfold s1. simpl.
    by rewrite <- app_assoc. }
  assert (Hlen1 : length (nodes s1) = Z.to_nat num_nodes).
  { unfold node_count in Hn1. lia. }
  exists s5. split; [reflexivity|].
  assert (Hn5 : node_count s5 = num_nodes + 2).
  { unfold node_count. rewrite Hns5, Hns4. exact Hn3. }
  rewrite Hn5, Hfaces, Hnodes. clearbody s5 s4 s3 s2.
  split; [done|]. split; [|split; [|split; [done|split]]].
  - rewrite lookup_app_r by lia. by rewrite Hlen1, Nat.sub_diag.
  - rewrite lookup_app_r by (unfold num_nodes in *; lia).
    replace (Z.to_nat (num_nodes + 1) - length (nodes s1))%nat with 1%nat
      by (unfold num_nodes in *; nia).
    done.
  - rewrite !length_app. unfold lower, upper. rewrite !length_fmap, !length_seqZ.
    unfold quads. rewrite (length_bind_const _ _ (Z.to_nat (resolution - 2))).
    + rewrite length_seqZ. nia.
    + intros n _. rewrite (length_bind_const _ _ 1); [|done].
      unfold range3, num_nodes. rewrite length_fmap, length_seqZ, range3_length by done.
      lia.
  - apply list.Forall_app. split; [|apply list.Forall_app; split; [done|done]].
    eapply list.Forall_impl; [exact Hquads|]. intros face Hface.
    eapply list.Forall_impl; [exact Hface|]. simpl. lia.
Qed.

Lemma getSpheroid_structure_witness :
  ∃ spheroid,
    getSpheroid (0, 0, 0)%R (1, 1, 1)%R 10 = Some spheroid
    ∧ node_count spheroid = 10 * (10 - 1) + 2
    ∧ Z.of_nat (length (faces spheroid)) = 10 * 10.
Proof.
  destruct (getSpheroid_structure 0 0 0 1 1 1 10) as (s & H & Hn & _ & _ & _ & Hf & _);
    [lia|].
  exists s. split; [exact H|]. split; [exact Hn|exact Hf].
Defined.

(** X23: [getSpheroid] raises exactly when the resolution is below 2: there
    is then no latitude, the first node list is empty and [addNodes] cannot
    stack it. *)
Theorem getSpheroid_fails_iff (x y z rx ry rz : R) (resolution : Z) :
  getSpheroid (x, y, z) (rx, ry, rz) resolution = None ↔ resolution < 2.
Proof.
  split.
  - intros Hnone. destruct (decide (resolution < 2)) as [|Hres]; [done|].
    destruct (getSpheroid_structure x y z rx ry rz resolution) as (s & H & _); [lia|].
    congruence.
  - intros Hres. unfold getSpheroid. by rewrite (seqZ_nil 1 (resolution - 1)) by lia.
Qed.

End spheroid.

(** ** More on the geometry buffer *)

Section buffer_operations.
Import Wireframe.

Lemma node_count_addFace w l : node_count (addFace w l) = node_count w.
Proof. unfold node_count. by rewrite nodes_addFace. Qed.

(** X25: [addFaces] appends, in order, exactly the loops of its argument
    whose indices are all below the node count, and nothing else; the nodes
    are untouched. *)
Theorem addFaces_appends_accepted (w : Wireframe) (face_list : list (list Z)) :
  nodes (addFaces w face_list) = nodes w
  ∧ faces (addFaces w face_list)
    = faces w ++ filter (λ loop, Forall (λ node, node < node_count w) loop) face_list.
Proof.
  split; [apply nodes_addFaces|].
  revert w. induction face_list as [|l fl IH]; intros w.
  - by rewrite filter_nil, app_nil_r.
  - rewrite addFaces_cons, IH.
    rewrite (list_filter_iff _ (λ loop, Forall (λ node, node < node_count w) loop))
      by (intros loop; by rewrite node_count_addFace).
    unfold addFace, node_count. case_decide as Hl.
    + rewrite filter_cons_True by done. simpl. by rewrite <- app_assoc.
    + by rewrite filter_cons_False by done.
Qed.

Lemma faces_have_edges_grow w w' :
  faces w' = faces w → edges w `prefix_of` edges w' →
  faces_have_edges w → faces_have_edges w'.
Proof.
  unfold faces_have_edges. intros -> [k ->] Hw.
  eapply list.Forall_impl; [exact Hw|]. intros face Hface.
  eapply list.Forall_impl; [exact Hface|]. simpl. intros e He.
  apply elem_of_app. by left.
Qed.

Lemma faces_have_edges_addFace w l : faces_have_edges w → faces_have_edges (addFace w l).
Proof.
  intros Hw. unfold addFace. case_decide as Hl; [|done].
  unfold faces_have_edges. simpl. apply list.Forall_app. split.
  - eapply list.Forall_impl; [exact Hw|]. intros face Hface.
    eapply list.Forall_impl; [exact Hface|]. simpl. intros e He.
    apply elem_of_app. by left.
  - constructor; [|constructor]. apply list.Forall_forall. intros e He.
    rewrite elem_of_app, list_elem_of_filter.
    destruct (decide (e ∈ edges w)); [by left|by right].
Qed.

Lemma faces_have_edges_addFaces w fl : faces_have_edges w → faces_have_edges (addFaces w fl).
Proof.
  revert w. induction fl as [|l fl IH]; intros w Hw; [done|].
  rewrite addFaces_cons. by apply IH, faces_have_edges_addFace.
Qed.

Lemma faces_have_edges_run_call w c : faces_have_edges w → faces_have_edges (run_call w c).
Proof.
  destruct c as [[na|el|fl]|t]; simpl.
  - by apply faces_have_edges_grow.
  - apply faces_have_edges_grow; [done|]. simpl. by apply prefix_app_r.
  - apply faces_have_edges_addFaces.
  - apply faces_have_edges_grow; by destruct t.
Qed.

(** X26: in every state reached from a wireframe in which each stored face
    has all its boundary pairs (loop[n-1], loop[n]) in the edge list, in
    particular from the empty wireframe, by any calls of [addNodes],
    [addEdges], [addFaces] and the transforms, each stored face still has
    all its boundary pairs in the edge list. *)
Theorem faces_have_edges_invariant (w : Wireframe) (calls : list call) :
  faces_have_edges w → faces_have_edges (run_calls w calls).
Proof.
  revert w. induction calls as [|c calls IH]; intros w Hw; [done|].
  simpl. by apply IH, faces_have_edges_run_call.
Qed.

Lemma faces_have_edges_invariant_witness :
  faces_have_edges
    (run_calls init [Append (AddNodes [(0, 0, 0); (1, 0, 0); (0, 1, 0)]%R);
                     Append (AddFaces [[0; 1; 2]]); Move (Translate 1 0 0);
                     Append (AddEdges [(2, 2)])]).
Proof. apply faces_have_edges_invariant. constructor. Defined.

Lemma run_transform_length w t : length (nodes (run_transform w t)) = length (nodes w).
Proof. rewrite nodes_run_transform. apply length_dot. Qed.

Lemma run_transform_addEdges w t el :
  run_transform (addEdges w el) t = addEdges (run_transform w t) el.
Proof. by destruct t. Qed.

Lemma run_transform_addFace w t l :
  run_transform (addFace w l) t = addFace (run_transform w t) l.
Proof.
  unfold addFace. rewrite run_transform_length.
  case_decide; [|done]. rewrite run_transform_addEdges. by destruct t.
Qed.

(** X27: [addEdges] and [addFaces] commute with every transform call:
    adding edges or faces and then transforming gives the same wireframe as
    transforming first, the test of [addFaces] depending on the number of
    nodes only. *)
Theorem topology_commutes_with_transforms (w : Wireframe) (t : transform_call) :
  (∀ edge_list,
     run_transform (addEdges w edge_list) t = addEdges (run_transform w t) edge_list)
  ∧ (∀ face_list,
     run_transform (addFaces w face_list) t = addFaces (run_transform w t) face_list).
Proof.
  split; [intros el; apply run_transform_addEdges|].
  intros fl. revert w. induction fl as [|l fl IH]; intros w; [done|].
  by rewrite !addFaces_cons, IH, run_transform_addFace.
Qed.

End buffer_operations.

Section face_boundary.
Import Wireframe.

Lemma lookup_omap_total {A B} (f : A → option B) (l : list A) (i : nat) :
  Forall (λ x, is_Some (f x)) l → omap f l !! i = l !! i ≫= f.
Proof.
  intros Hl. revert i. induction Hl as [|x l [y Hy] _ IH]; intros i; [done|].
  simpl. rewrite Hy. destruct i as [|i]; simpl; [done|]. apply IH.
Qed.

Lemma getitem_nonneg {A} (l : list A) (i : nat) : getitem l (Z.of_nat i) = l !! i.
Proof. unfold getitem. rewrite decide_False by lia. by rewrite Nat2Z.id. Qed.

Lemma getitem_pred {A} (l : list A) (i : nat) :
  (i < length l)%nat →
  getitem l (Z.of_nat i - 1) = l !! ((i + length l - 1) `mod` length l)%nat.
Proof.
  intros Hi. unfold getitem. destruct i as [|i].
  - rewrite decide_True by lia. rewrite decide_True by lia.
    replace (0 + length l - 1)%nat with (length l - 1)%nat by lia.
    rewrite Nat.mod_small by lia. f_equal. lia.
  - rewrite decide_False by lia.
    replace (S i + length l - 1)%nat with (i + 1 * length l)%nat by lia.
    rewrite Nat.Div0.mod_add, Nat.mod_small by lia. f_equal. lia.
Qed.

(** X28: the boundary pairs of a loop form its closed cycle: there is one
    pair per index, and the pair of index i joins the entry before it, the
    last entry for i = 0, to the entry of index i. *)
Theorem face_edges_cycle (loop : list Z) (i : nat) (b : Z) :
  loop !! i = Some b →
  length (face_edges loop) = length loop
  ∧ ∃ a, loop !! ((i + length loop - 1) `mod` length loop)%nat = Some a
         ∧ face_edges loop !! i = Some (a, b).
Proof.
  intros Hb. split; [apply face_edges_length|].
  assert (Hi : (i < length loop)%nat) by (by eapply lookup_lt_Some).
  assert (Hpred : is_Some (loop !! ((i + length loop - 1) `mod` length loop)%nat)).
  { apply lookup_lt_is_Some. apply Nat.mod_upper_bound. lia. }
  destruct Hpred as [a Ha]. exists a. split; [exact Ha|].
  unfold face_edges. rewrite lookup_omap_total.
  - rewrite (lookup_seqZ_lt 0 _ i) by lia. rewrite Z.add_0_l.
    change (getitem loop (Z.of_nat i - 1)
              ≫= (λ a', getitem loop (Z.of_nat i) ≫= λ b', Some (a', b'))
            = Some (a, b)).
    by rewrite getitem_pred, Ha, getitem_nonneg, Hb.
  - apply list.Forall_forall. intros n Hn. apply elem_of_seqZ in Hn.
    replace n with (Z.of_nat (Z.to_nat n)) by lia.
    assert (Hn' : (Z.to_nat n < length loop)%nat) by lia.
    rewrite getitem_pred, getitem_nonneg by done.
    destruct (lookup_lt_is_Some_2 loop (Z.to_nat n) Hn') as [y ->].
    destruct (lookup_lt_is_Some_2 loop
                ((Z.to_nat n + length loop - 1) `mod` length loop)%nat) as [y' ->].
    { apply Nat.mod_upper_bound. lia. }
    simpl. eauto.
Qed.

Lemma face_edges_cycle_witness :
  length (face_edges [7; 8; 9]) = length [7; 8; 9]
  ∧ ∃ a, [7; 8; 9] !! ((0 + length [7; 8; 9] - 1) `mod` length [7; 8; 9])%nat = Some a
         ∧ face_edges [7; 8; 9] !! 0%nat = Some (a, 7).
Proof. apply face_edges_cycle. reflexivity. Defined.

End face_boundary.

(** ** The homogeneous component in float64 *)

Section float64.
Variables cos64 sin64 : float → float.
#[local] Open Scope float_scope.

(** A float that is neither infinite nor nan is a zero or a finite number. *)
Lemma finite_cases x :
  is_finite x = true →
  (∃ s, Prim2SF x = S754_zero s) ∨ (∃ s m e, Prim2SF x = S754_finite s m e).
Proof.
  unfold is_finite, Prim2SF. destruct (is_nan x); [discriminate|].
  destruct (is_infinity x); [discriminate|]. intros _.
  destruct (is_zero x); [eauto|].
  destruct (Z.frexp x) as [r ex]. destruct (shr_fexp _ _ _ _ _) as [shr e'].
  destruct (shr_m shr); eauto.
Qed.

(** The product of a finite float and 0 is a zero. *)
Lemma mul_zero_finite x : is_finite x = true → ∃ s, Prim2SF (x * 0) = S754_zero s.
Proof.
  intros H. rewrite mul_spec.
  destruct (finite_cases x H) as [[s ->]|(s & m & e & ->)]; vm_compute; eauto.
Qed.

Lemma add_zeros a b sa sb :
  Prim2SF a = S754_zero sa → Prim2SF b = S754_zero sb → ∃ s, Prim2SF (a + b) = S754_zero s.
Proof.
  intros Ha Hb. rewrite add_spec, Ha, Hb. destruct sa, sb; vm_compute; eauto.
Qed.

Lemma add_zero_one a sa : Prim2SF a = S754_zero sa → a + 1 * 1 = 1.
Proof.
  intros Ha. apply Prim2SF_inj. rewrite add_spec, Ha.
  destruct sa; vm_compute; reflexivity.
Qed.

(** The last entry of a row times a matrix whose last column is
    (0, 0, 0, 1), for a row of finite coordinates and last entry 1. *)
Lemma last_entry_one x y z :
  is_finite x = true → is_finite y = true → is_finite z = true →
  x * 0 + y * 0 + z * 0 + 1 * 1 = 1.
Proof.
  intros Hx Hy Hz.
  destruct (mul_zero_finite x Hx) as [sx Hx0].
  destruct (mul_zero_finite y Hy) as [sy Hy0].
  destruct (mul_zero_finite z Hz) as [sz Hz0].
  destruct (add_zeros _ _ _ _ Hx0 Hy0) as [sxy Hxy].
  destruct (add_zeros _ _ _ _ Hxy Hz0) as [sxyz Hxyz].
  by apply (add_zero_one _ sxyz).
Qed.

Lemma homogeneous_dot64 nodes M :
  F64.affine M → F64.finite_nodes nodes → F64.homogeneous nodes →
  F64.homogeneous (F64.dot nodes M).
Proof.
  unfold F64.affine, F64.finite_nodes, F64.homogeneous, F64.dot.
  intros HM Hfin Hhom. apply list.Forall_fmap.
  induction nodes as [|[[[x y] z] h] nodes IH]; [constructor|].
  apply list.Forall_cons in Hfin as [(Hx & Hy & Hz) Hfin].
  apply list.Forall_cons in Hhom as [Hh Hhom]. simpl in Hh. subst h.
  constructor; [|by apply IH].
  destruct M as [[[[[[a00 a01] a02] a03] [[[a10 a11] a12] a13]]
                  [[[a20 a21] a22] a23]] [[[a30 a31] a32] a33]].
  simpl in HM. injection HM as -> -> -> ->. simpl. by apply last_entry_one.
Qed.

Lemma homogeneous_run_call64 nodes c :
  F64.affine_call c →
  match c with F64.AddNodes _ => True | _ => F64.finite_nodes nodes end →
  F64.homogeneous nodes → F64.homogeneous (F64.run_call cos64 sin64 nodes c).
Proof.
  intros Hc Hfin Hhom. destruct c; simpl.
  - unfold F64.addNodes, F64.homogeneous. apply list.Forall_app. split; [done|].
    apply list.Forall_fmap, list.Forall_forall. by intros [[x y] z] _.
  - by apply homogeneous_dot64.
  - by apply homogeneous_dot64.
  - by apply homogeneous_dot64.
  - by apply homogeneous_dot64.
  - by apply homogeneous_dot64.
  - by apply homogeneous_dot64.
Qed.

(** C6, as amended: in float64 the homogeneous component of every stored
    node is exactly 1 after [addNodes], and after [translate], [scale],
    [rotateX], [rotateY], [rotateZ] and [transform] with a matrix whose last
    column is (0, 0, 0, 1), when the three coordinates of the nodes the call
    multiplies are finite; so it is in every state reached from such a
    state by calls of these kinds, as long as the coordinates stay finite. *)
Theorem homogeneous_component_float64 (nodes : list fvec4) (calls : list F64.call) :
  F64.homogeneous nodes →
  Forall F64.affine_call calls →
  F64.finite_at_products cos64 sin64 nodes calls →
  F64.homogeneous (F64.run_calls cos64 sin64 nodes calls)
  ∧ ∀ i x y z h,
      F64.run_calls cos64 sin64 nodes calls !! i = Some (x, y, z, h) → h = 1.
Proof.
  intros Hhom Hcalls Hfin.
  assert (H : F64.homogeneous (F64.run_calls cos64 sin64 nodes calls)).
  { revert nodes Hhom Hfin.
    induction Hcalls as [|c calls Hc _ IH]; intros nodes Hhom Hfin; [done|].
    destruct Hfin as [Hfin Hrest]. simpl. apply IH; [|done].
    by apply homogeneous_run_call64. }
  split; [exact H|]. intros i x y z h Hi.
  unfold F64.homogeneous in H. rewrite list.Forall_forall in H.
  apply (H (x, y, z, h)). by eapply list_elem_of_lookup_2.
Qed.


End float64.

Lemma homogeneous_component_float64_witness :
  F64.homogeneous
    (F64.run_calls (λ _, 1%float) (λ _, 0%float) []
       [F64.AddNodes [(1, 1, 1)]%float; F64.Scale 2 0 0 0; F64.RotateX 0 0 1;
        F64.Translate 1 2 3]).
Proof.
  refine (proj1 (homogeneous_component_float64 (λ _, 1%float) (λ _, 0%float) [] _ _ _ _)).
  - constructor.
  - repeat constructor.
  - vm_compute. repeat split; repeat constructor.
Defined.

(** C6 as stated fails.  [transform] with the matrix 2·I sends the node
    (1, 1, 1, 1) to (2, 2, 2, 2).  And a coordinate that overflows is
    multiplied by the 0 of the last column at the next call: after
    [addNodes] of (2^1023, 0, 0) and [scale(2)] twice the node is
    (inf, nan, nan, nan). *)
Lemma homogeneous_component_lost :
  F64.homogeneous [(1, 1, 1, 1)%float]
  ∧ F64.transform [(1, 1, 1, 1)%float]
      ((2, 0, 0, 0), (0, 2, 0, 0), (0, 0, 2, 0), (0, 0, 0, 2))%float
    = [(2, 2, 2, 2)%float]
  ∧ F64.addNodes [] [(0x1p+1023, 0, 0)%float] = [(0x1p+1023, 0, 0, 1)%float]
  ∧ F64.scale (F64.scale (F64.addNodes [] [(0x1p+1023, 0, 0)%float]) 2 0 0 0) 2 0 0 0
    = [(infinity, nan, nan, nan)].
Proof.
  split; [by repeat constructor|]. split; [by vm_compute|].
  split; by vm_compute.
Qed.


